(** * Kernel SHAP explainer ([shap/explainers/kernel.py])

    A shallow embedding of [KernelExplainer.explain], of the methods it
    drives ([varying_groups], [allocate], [addsample], [run], [solve]) and
    of its caller [shap_values], followed by the properties of the
    coalition sampler and of the attribution solver.

    Conventions of the embedding.
    - numpy floats are exact rationals ([Q]); rounding is not modelled.
      The properties below are therefore about what is computed from what,
      which branch is taken and what is left untouched, not about
      identities that hold only without rounding. Division by zero
      evaluates to [0] in [Q]; every theorem below applies where the
      divisor is non-zero.
    - a raised Python exception is [None].
    - the dense code path is modelled ([DenseData], no index column, no
      recurrent model); model outputs are always [rows x D] matrices, a scalar
      output being the case [D = 1].
    - a coalition mask, a float vector over {0.0, 1.0} in the source, is a
      [list bool]; [b2q] injects it where the solver computes with it. *)

From Stdlib Require Import QArith Qabs Qround Lqa ZArith Ascii String.
From stdpp Require Import base option list gmap sorting.

Set Default Proof Using "Type".

Abbreviation vec := (list Q).
Abbreviation matrix := (list (list Q)).
Abbreviation mask := (list bool).

(** ** Small numeric helpers (numpy vector operations) *)

Definition b2q (b : bool) : Q := if b then 1%Q else 0%Q.

Definition qsum (v : vec) : Q := foldr Qplus 0%Q v.

Definition vadd (a b : vec) : vec := zip_with Qplus a b.
Definition vsub (a b : vec) : vec := zip_with Qminus a b.
Definition vmul (a b : vec) : vec := zip_with Qmult a b.
Definition vscale (c : Q) (a : vec) : vec := map (Qmult c) a.
Definition vdiv (a : vec) (c : Q) : vec := map (fun x => (x / c)%Q) a.

Definition Qlt_bool (a b : Q) : bool := negb (Qle_bool b a).

(** A [for] loop whose body may raise. *)
Fixpoint foldlM {A B} (f : B -> A -> option B) (b : B) (l : list A) : option B :=
  match l with
  | [] => Some b
  | x :: t => b' ← f b x; foldlM f b' t
  end.

(** [np.sum(maskMatrix, 1)]: the number of known groups of a coalition. *)
Definition msize (m : mask) : nat := length (filter (fun b => b = true) m).

(** [np.abs(mask - 1)]: the complementary coalition. *)
Definition complement (m : mask) : mask := map negb m.

(** [mask[:] = 0.0; mask[inds] = 1.0] on a mask of [M] entries. The index
    lists of the source ([itertools.combinations] of [arange(M)], a prefix of
    [np.random.permutation(M)]) are always in range. *)
Definition mask_of (M : nat) (inds : list nat) : mask :=
  foldr (fun i m => <[i:=true]> m) (replicate M false) inds.

(** [scipy.special.binom] on naturals, by Pascal's rule. *)
Fixpoint binom (n k : nat) : nat :=
  match k with
  | O => 1
  | S k' => match n with
            | O => 0
            | S n' => binom n' k' + binom n' k
            end
  end.

(** [itertools.combinations(l, k)], in the order the iterator yields. *)
Fixpoint combinations {A} (l : list A) (k : nat) : list (list A) :=
  match l with
  | [] => match k with O => [[]] | S _ => [] end
  | x :: t => match k with
              | O => [[]]
              | S k' => map (cons x) (combinations t k') ++ combinations t k
              end
  end.

(** [np.nonzero(v)[0]]. *)
Definition nonzero (v : vec) : list nat :=
  omap (fun '(i, c) => if Qeq_bool c 0 then None else Some i) (imap pair v).

(** [np.isclose(a, b)] with numpy's default tolerances. *)
Definition rtol : Q := 1 # 100000.
Definition atol : Q := 1 # 100000000.
Definition isclose (a b : Q) : bool :=
  Qle_bool (Qabs (a - b)) (atol + rtol * Qabs b).

(** ** Values of the dynamically typed keyword arguments *)

Inductive pyval :=
  | PStr (s : string)
  | PBool (b : bool)
  | PNum (q : Q).

Inductive nsamples_arg :=
  | NsAuto
  | NsInt (n : Z).

Record kwargs := {
  kw_l1_reg : option pyval;
  kw_nsamples : option nsamples_arg
}.

(** ** Library routines the explainer calls

    numpy's and scikit-learn's routines are an interface: the explainer is
    verified for every implementation of it. The pseudo-random generator is a
    state passed through [np.random.choice] and [np.random.permutation]; the
    contracts are the ones numpy and scikit-learn document (a permutation of
    [arange(n)], [size] draws below [n], an active set without repetition). *)

Class Externals := {
  np_sqrt : Q -> Q;
  linalg_inv : matrix -> option matrix;
  lars_path : matrix -> vec -> Z -> option (list nat);
  LassoLarsIC : string -> matrix -> vec -> option vec;
  Lasso : pyval -> matrix -> vec -> option vec;
  py_int : string -> option Z;
  rng : Type;
  random_choice : rng -> nat -> nat -> vec -> list nat * rng;
  random_permutation : rng -> nat -> list nat * rng;
  random_choice_spec : forall g n k p, 0 < n ->
    length (random_choice g n k p).1 = k /\
    Forall (fun i => i < n) (random_choice g n k p).1;
  random_permutation_spec : forall g n,
    (random_permutation g n).1 ≡ₚ seq 0 n;
  lars_path_spec : forall A b r act, lars_path A b r = Some act -> NoDup act
}.

(** ** The explainer object *)

(** [self.data] (a [DenseData]) and the fields [__init__] fixes. [astype]
    is the conversion to the element type of the background array, which
    numpy applies to every value stored into the synthetic data tiled from
    it: the identity for a float background, truncation for an integer
    one. *)
Record config := {
  model : matrix -> matrix;
  link : Q -> Q;
  data : matrix;
  astype : Q -> Q;
  groups : list (list nat);
  groups_size : nat;
  weights : vec;
  N : nat;
  P : nat;
  fnull : vec;
  D : nat
}.

(** The fields [explain] sets for the instance at hand. *)
Record instance_fields := {
  varyingInds : list nat;
  varyingFeatureGroups : list (list nat);
  M : nat;
  fx : vec;
  l1_reg : pyval;
  nsamples : Z;
  max_samples : Z
}.

(** The buffers [allocate] creates and [addsample] and [run] fill. *)
Record buffers := {
  synth_data : matrix;
  maskMatrix : list mask;
  kernelWeights : vec;
  y : matrix;
  ey : matrix;
  nsamplesAdded : nat;
  nsamplesRun : nat
}.

Record explainer := {
  cfg : config;
  inst : instance_fields;
  buf : buffers
}.

Definition with_buf (st : explainer) (b : buffers) : explainer :=
  {| cfg := cfg st; inst := inst st; buf := b |}.

Definition with_inst (st : explainer) (i : instance_fields) : explainer :=
  {| cfg := cfg st; inst := i; buf := buf st |}.

Definition with_kernelWeights (st : explainer) (kw : vec) : explainer :=
  with_buf st
    {| synth_data := synth_data (buf st); maskMatrix := maskMatrix (buf st);
       kernelWeights := kw; y := y (buf st); ey := ey (buf st);
       nsamplesAdded := nsamplesAdded (buf st);
       nsamplesRun := nsamplesRun (buf st) |}.

Definition empty_inst : instance_fields :=
  {| varyingInds := []; varyingFeatureGroups := []; M := 0; fx := [];
     l1_reg := PStr "auto"; nsamples := 0; max_samples := 0 |}.

Definition empty_buf : buffers :=
  {| synth_data := []; maskMatrix := []; kernelWeights := []; y := [];
     ey := []; nsamplesAdded := 0; nsamplesRun := 0 |}.

(** [np.sum((model_null.T * weights).T, 0)]: the weighted column sums. *)
Definition weighted_colsum (d : nat) (rows : matrix) (w : vec) : vec :=
  foldr vadd (replicate d 0%Q) (zip_with vscale w rows).

(** Modelled from the spec: [match_model_to_data] is not part of this file;
    by section 4.1 of the specification the baseline is the model evaluated
    on the background rows, [fnull = sum_i weight_i * f(background_i)]. *)
Definition match_model_to_data (f : matrix -> matrix) (bg : matrix) : matrix :=
  f bg.

(** [KernelExplainer.__init__] for a dense background set [bg] without
    index column, whose element type converts by [cast]; [d] is the number
    of model outputs. *)
Definition init (f : matrix -> matrix) (lnk : Q -> Q) (bg : matrix)
    (cast : Q -> Q) (grps : list (list nat)) (w : vec) (d : nat) : explainer :=
  let model_null := match_model_to_data f bg in
  {| cfg := {| model := f; link := lnk; data := bg; astype := cast;
               groups := grps;
               groups_size := length grps; weights := w;
               N := length bg; P := length (default [] (head bg));
               fnull := weighted_colsum d model_null w; D := d |};
     inst := empty_inst;
     buf := empty_buf |}.

(** ** [varying_groups] (dense input) *)

(** [np.sum(np.invert(np.isclose(x_group, data[:, inds], equal_nan=True)))] *)
Definition num_mismatches (x : vec) (bg : matrix) (inds : list nat) : option nat :=
  x_group ← mapM (fun k => x !! k) inds;
  rows ← mapM (fun row => mapM (fun k => (row : vec) !! k) inds) bg;
  Some (sum_list (map (fun row_group =>
          length (filter (fun b => b = false) (zip_with isclose x_group row_group)))
        rows)).

Definition varying_groups (c : config) (x : vec) : option (list nat) :=
  varying ← mapM (fun i => inds ← groups c !! i;
                           n ← num_mismatches x (data c) inds;
                           Some (bool_decide (0 < n)))
                 (seq 0 (groups_size c));
  Some (omap (fun '(i, b) => if (b : bool) then Some i else None)
             (imap pair varying)).

(** ** [allocate] *)

Definition allocate (st : explainer) : option explainer :=
  guard (0 <= nsamples (inst st))%Z;;
  let n := Z.to_nat (nsamples (inst st)) in
  Some (with_buf st
    {| synth_data := mjoin (replicate n (data (cfg st)));
       maskMatrix := replicate n (replicate (M (inst st)) false);
       kernelWeights := replicate n 0%Q;
       y := replicate (n * N (cfg st)) (replicate (D (cfg st)) 0%Q);
       ey := replicate n (replicate (D (cfg st)) 0%Q);
       nsamplesAdded := 0;
       nsamplesRun := 0 |}).

(** ** [addsample] *)

(** [synth_data[offset:offset+n, k] = v]: the value is converted to the
    element type of the array it is stored in. *)
Definition write_block (cast : Q -> Q) (sd : matrix) (offset n k : nat) (v : Q)
    : matrix :=
  imap (fun r row => if bool_decide (offset <= r < offset + n)
                     then <[k := cast v]> row else row) sd.

Definition addsample (st : explainer) (x : vec) (m : mask) (w : Q)
    : option explainer :=
  let b := buf st in
  let offset := nsamplesAdded b * N (cfg st) in
  sd ← foldlM (fun sd j =>
          grp ← varyingFeatureGroups (inst st) !! j;
          mj ← m !! j;
          foldlM (fun sd k =>
              if (mj : bool) then
                v ← x !! k;
                guard (k < P (cfg st));;
                Some (write_block (astype (cfg st)) sd offset (N (cfg st)) k v)
              else Some sd) sd grp)
        (synth_data b) (seq 0 (M (inst st)));
  guard (nsamplesAdded b < length (maskMatrix b));;
  guard (length m = M (inst st));;
  Some (with_buf st
    {| synth_data := sd;
       maskMatrix := <[nsamplesAdded b := m]> (maskMatrix b);
       kernelWeights := <[nsamplesAdded b := w]> (kernelWeights b);
       y := y b; ey := ey b;
       nsamplesAdded := S (nsamplesAdded b);
       nsamplesRun := nsamplesRun b |}).

(** [self.kernelWeights[i] += 1.0] *)
Definition incr_weight (st : explainer) (i : nat) : option explainer :=
  w ← kernelWeights (buf st) !! i;
  Some (with_kernelWeights st (<[i := (w + 1)%Q]> (kernelWeights (buf st)))).

(** The populated rows of the mask matrix, each with its kernel weight:
    the coalitions sampled so far. *)
Definition rows (st : explainer) : list (list bool * Q) :=
  take (nsamplesAdded (buf st))
       (zip (maskMatrix (buf st)) (kernelWeights (buf st))).

(** Complement pairing of a list of sampled rows, for the paired sizes up
    to [p]: a row whose coalition has at most [p] known groups is followed
    at once by the complementary coalition with the same weight. *)
Definition paired_rows (p : nat) (rs : list (list bool * Q)) : Prop :=
  forall i m w, rs !! i = Some (m, w) -> msize m <= p ->
    rs !! S i = Some (complement m, w).

(** The rows the enumeration of one subset size contributes: each
    combination of [k] of the [m] groups, in the order of
    [itertools.combinations], followed by its complement when the size is
    paired, all with the weight [w]. *)
Definition subset_rows (m k : nat) (paired : bool) (w : Q)
    : list (list bool * Q) :=
  concat (map (fun inds =>
                 let msk := mask_of m inds in
                 if paired then [(msk, w); (complement msk, w)]
                 else [(msk, w)])
              (combinations (seq 0 m) k)).

(** The buffers as [allocate] shapes them: a weight for every mask row. *)
Definition buffers_aligned (st : explainer) : Prop :=
  length (kernelWeights (buf st)) = length (maskMatrix (buf st)).

(** The synthetic rows [sd] are the rows [sd0] with, in the block of [n]
    rows at [offset], the columns in [W] overwritten by the values of the
    instance [x], converted by [cast]. *)
Definition overwritten (cast : Q -> Q) (x : vec) (offset n : nat)
    (sd0 : matrix) (W : nat -> Prop) (sd : matrix) : Prop :=
  length sd = length sd0 /\
  forall r row0, sd0 !! r = Some row0 ->
    exists row, sd !! r = Some row /\ length row = length row0 /\
      (~ (offset <= r < offset + n) -> row = row0) /\
      (offset <= r < offset + n -> forall k, k < length row0 ->
         (W k -> row !! k = cast <$> x !! k) /\
         (~ W k -> row !! k = row0 !! k)).

(** ** [run] *)

Definition run (st : explainer) : option explainer :=
  let b := buf st in
  let c := cfg st in
  let lo := nsamplesRun b * N c in
  let hi := nsamplesAdded b * N c in
  let num_to_run := hi - lo in
  let modelOut := model c (take num_to_run (drop lo (synth_data b))) in
  (* np.reshape(modelOut, (num_to_run, self.D)) *)
  guard (length modelOut = num_to_run);;
  guard (Forall (fun r => length r = D c) modelOut);;
  let y' := take lo (y b) ++ modelOut ++ drop hi (y b) in
  ey' ← foldlM (fun eyAcc i =>
            eyVal ← foldlM (fun acc j =>
                       yr ← y' !! (i * N c + j);
                       wj ← weights c !! j;
                       Some (vadd acc (vscale wj yr)))
                     (replicate (D c) 0%Q) (seq 0 (N c));
            guard (i < length eyAcc);;
            Some (<[i := eyVal]> eyAcc))
          (ey b) (seq (nsamplesRun b) (nsamplesAdded b - nsamplesRun b));
  Some (with_buf st
    {| synth_data := synth_data b; maskMatrix := maskMatrix b;
       kernelWeights := kernelWeights b; y := y'; ey := ey';
       nsamplesAdded := nsamplesAdded b;
       nsamplesRun := nsamplesRun b + (nsamplesAdded b - nsamplesRun b) |}).

(** ** [solve] *)

Definition dot (u v : vec) : Q := qsum (vmul u v).

(** The transpose of a matrix of [ncols] columns. *)
Definition transpose (ncols : nat) (A : matrix) : matrix :=
  map (fun j => map (fun row => nth j row 0%Q) A) (seq 0 ncols).

(** [np.dot(np.transpose(A), B)] for [A] and [B] of [k] columns. *)
Definition dot_tn (k : nat) (A B : matrix) : matrix :=
  map (fun a => map (fun b => dot a b) (transpose k B)) (transpose k A).

(** [np.dot(np.transpose(A), v)] *)
Definition dot_tv (k : nat) (A : matrix) (v : vec) : vec :=
  map (fun a => dot a v) (transpose k A).

(** [np.dot(A, v)], which raises unless every row is as long as [v]. *)
Definition dot_mv (A : matrix) (v : vec) : option vec :=
  guard (Forall (fun r => length r = length v) A);;
  Some (map (fun r => dot r v) A).

(** [self.l1_reg not in ["auto", False, 0]], by Python's [==]. *)
Definition not_in_auto_False_0 (v : pyval) : bool :=
  match v with
  | PStr s => negb (String.eqb s "auto")
  | PBool b => b
  | PNum q => negb (Qeq_bool q 0)
  end.

Definition is_str (s : string) (v : pyval) : bool :=
  match v with
  | PStr s' => String.eqb s' s
  | _ => false
  end.

(** The guard of the feature-selection block. *)
Definition selection_runs (l1 : pyval) (fraction_evaluated : Q) : bool :=
  not_in_auto_False_0 l1
  || (Qlt_bool fraction_evaluated (2 # 10) && is_str "auto" l1).

(** The regularisation modes of the specification: off is [False] or a
    numeric zero, the legacy default is the string [auto]; a mode is
    explicitly requested when it is neither. *)
Definition is_off (v : pyval) : Prop :=
  match v with
  | PStr _ => False
  | PBool b => b = false
  | PNum q => (q == 0)%Q
  end.

Definition explicitly_requested (v : pyval) : Prop :=
  v <> PStr "auto" /\ ~ is_off v.

(** The double-quote character of the message below. *)
Definition dquote : string := String "034"%char EmptyString.

(** The text [solve] passes to [warnings.warn], character by character; the
    quotation marks around [auto] and [num_features(10)] are part of it. *)
Definition deprecation_warning : string :=
  String.concat dquote
    ["l1_reg=";
     "auto";
     " is deprecated and in the next version (v0.29) the behavior will change from a conditional use of AIC to simply ";
     "num_features(10)";
     "!"]%string.

(** [phi[inds] = vals], index by index. *)
Definition assign (phi : vec) (inds : list nat) (vals : vec) : option vec :=
  guard (length inds = length vals);;
  foldlM (fun phi '(i, v) => guard (i < length phi);; Some (<[i := v]> phi))
         phi (zip inds vals).

Definition tiny : Q := 1 # 10000000000.

(** The clean-up loop at the end of [solve]. *)
Definition clean (phi : vec) : vec :=
  map (fun p => if Qlt_bool (Qabs p) tiny then 0%Q else p) phi.

Section Explainer.
Context `{Externals}.

(** The augmented system of the feature-selection block:
    [(mask_aug, eyAdj_aug)]. *)
Definition augmented_system (st : explainer) (eyAdj : vec) (dim : nat)
    : option (matrix * vec) :=
  let b := buf st in
  let c := cfg st in
  let m := M (inst st) in
  let s := map msize (maskMatrix b) in
  let w_aug :=
    zip_with (fun k si => (k * (inject_Z (Z.of_nat m) - inject_Z (Z.of_nat si)))%Q)
             (kernelWeights b) s
    ++ zip_with (fun k si => (k * inject_Z (Z.of_nat si))%Q) (kernelWeights b) s in
  let w_sqrt_aug := map np_sqrt w_aug in
  fxd ← fx (inst st) !! dim;
  fn ← fnull c !! dim;
  let diff := (link c fxd - link c fn)%Q in
  let eyAdj_aug := vmul (eyAdj ++ map (fun e => (e - diff)%Q) eyAdj) w_sqrt_aug in
  let mask_aug :=
    zip_with vscale w_sqrt_aug
      (map (map b2q) (maskMatrix b)
       ++ map (map (fun v => (b2q v - 1)%Q)) (maskMatrix b)) in
  Some (mask_aug, eyAdj_aug).

(** The three selection strategies, by the value of [l1_reg]. *)
Definition choose_support (l1 : pyval) (mask_aug : matrix) (eyAdj_aug : vec)
    : option (list nat) :=
  match l1 with
  | PStr s =>
      if String.prefix "num_features(" s then
        r ← py_int (substring 13 (String.length s - 14) s);
        lars_path mask_aug eyAdj_aug r
      else if String.eqb s "auto" || String.eqb s "bic" || String.eqb s "aic" then
        let crit := if String.eqb s "auto" then "aic"%string else s in
        coef ← LassoLarsIC crit mask_aug eyAdj_aug;
        Some (nonzero coef)
      else
        coef ← Lasso l1 mask_aug eyAdj_aug;
        Some (nonzero coef)
  | _ =>
      coef ← Lasso l1 mask_aug eyAdj_aug;
      Some (nonzero coef)
  end.

(** [nonzero_inds] as it stands after the feature-selection block. *)
Definition support (st : explainer) (fraction_evaluated : Q) (eyAdj : vec)
    (dim : nat) : option (list nat) :=
  if selection_runs (l1_reg (inst st)) fraction_evaluated then
    '(mask_aug, eyAdj_aug) ← augmented_system st eyAdj dim;
    choose_support (l1_reg (inst st)) mask_aug eyAdj_aug
  else Some (seq 0 (M (inst st))).

(** [eyAdj = self.linkfv(self.ey[:, dim]) - self.link.f(self.fnull[dim])] *)
Definition eyAdj_of (st : explainer) (dim : nat) : option vec :=
  ey_col ← mapM (fun r => (r : vec) !! dim) (ey (buf st));
  (* [np.vectorize] raises on an input of size 0 *)
  guard (0 < length ey_col);;
  fn ← fnull (cfg st) !! dim;
  Some (map (fun e => (link (cfg st) e - link (cfg st) fn)%Q) ey_col).

(** [self.link.f(self.fx[dim]) - self.link.f(self.fnull[dim])] *)
Definition total_diff (st : explainer) (dim : nat) : option Q :=
  fxd ← fx (inst st) !! dim;
  fn ← fnull (cfg st) !! dim;
  Some (link (cfg st) fxd - link (cfg st) fn)%Q.

(** The constrained weighted least-squares solve, before the clean-up loop:
    eliminate the last selected feature, regress the others, and give the
    last one what is left of the total. *)
Definition solve_core (st : explainer) (eyAdj : vec) (dim : nat)
    (nonzero_inds : list nat) : option vec :=
  let b := buf st in
  let c := cfg st in
  let m := M (inst st) in
  lst ← last nonzero_inds;
  let others := removelast nonzero_inds in
  diff ← total_diff st dim;
  col_last ← mapM (fun row => b2q <$> (row : mask) !! lst) (maskMatrix b);
  let eyAdj2 := zip_with (fun e cl => (e - cl * diff)%Q) eyAdj col_last in
  etmp ← mapM (fun row =>
            l ← (row : mask) !! lst;
            mapM (fun j => v ← row !! j; Some (b2q v - b2q l)%Q) others)
          (maskMatrix b);
  let tmp := zip_with (fun row k => map (fun e => (e * k)%Q) row)
                      etmp (kernelWeights b) in
  let k := length others in
  tmp2 ← linalg_inv (dot_tn k tmp etmp);
  w ← dot_mv tmp2 (dot_tv k tmp eyAdj2);
  phi ← assign (replicate m 0%Q) others w;
  guard (lst < length phi);;
  Some (<[lst := (diff - qsum w)%Q]> phi).

Definition solve (st : explainer) (fraction_evaluated : Q) (dim : nat)
    : list string * option (vec * vec) :=
  let m := M (inst st) in
  match eyAdj_of st dim with
  | None => ([], None)
  | Some eyAdj =>
      let warns :=
        if is_str "auto" (l1_reg (inst st)) then [deprecation_warning] else [] in
      (warns,
       nonzero_inds ← support st fraction_evaluated eyAdj dim;
       if bool_decide (length nonzero_inds = 0) then
         Some (replicate m 0%Q, replicate m 1%Q)
       else
         phi ← solve_core st eyAdj dim nonzero_inds;
         Some (clean phi, replicate (length phi) 1%Q))
  end.

(** What [solve] does with [nonzero_inds] once the feature-selection block
    is behind it: the early return on an empty support, otherwise the
    constrained solve and the clean-up loop. *)
Definition solve_with (st : explainer) (eyAdj : vec) (dim : nat)
    (nonzero_inds : list nat) : option (vec * vec) :=
  let m := M (inst st) in
  if bool_decide (length nonzero_inds = 0) then
    Some (replicate m 0%Q, replicate m 1%Q)
  else
    phi ← solve_core st eyAdj dim nonzero_inds;
    Some (clean phi, replicate (length phi) 1%Q).

(** ** [explain]: the sample budget *)

Definition nq (n : nat) : Q := inject_Z (Z.of_nat n).

Definition auto_nsamples (m : nat) : Z := 2 * Z.of_nat m + 2 ^ 11.

(** The budget asked for: the caller's [nsamples], or the default. *)
Definition requested (m : nat) (arg : nsamples_arg) : Z :=
  match arg with
  | NsAuto => auto_nsamples m
  | NsInt n => n
  end.

(** [self.nsamples] and [self.max_samples] for [m] varying groups. *)
Definition budget (m : nat) (arg : nsamples_arg) : Z * Z :=
  let ns := requested m arg in
  if bool_decide (m <= 30) then
    let mx := (2 ^ Z.of_nat m - 2)%Z in
    (if bool_decide (ns > mx)%Z then mx else ns, mx)
  else (ns, (2 ^ 30)%Z).

(** ** [explain]: the weights of the subset sizes *)

Definition num_subset_sizes (m : nat) : nat :=
  Z.to_nat (Qceiling ((nq m - 1) / 2)).

Definition num_paired_subset_sizes (m : nat) : nat :=
  Z.to_nat (Qfloor ((nq m - 1) / 2)).

Definition weight_vector (m : nat) : vec :=
  let wv := map (fun i => ((nq m - 1) / (nq i * (nq m - nq i)))%Q)
                (seq 1 (num_subset_sizes m)) in
  let p := num_paired_subset_sizes m in
  let wv := map (fun v => (v * 2)%Q) (take p wv) ++ drop p wv in
  vdiv wv (qsum wv).

(** ** [explain]: exact enumeration of the small subset sizes *)

(** The [for inds in itertools.combinations(group_inds, subset_size)] loop. *)
Definition add_subsets (x : vec) (paired : bool) (w : Q)
    (combs : list (list nat)) (st : explainer) : option explainer :=
  foldlM (fun st inds =>
      let m := mask_of (M (inst st)) inds in
      st ← addsample st x m w;
      if paired then addsample st x (complement m) w else Some st)
    st combs.

Definition enum_threshold : Q := 1 - (1 # 100000000).

(** The [for subset_size in range(1, num_subset_sizes + 1)] loop; leaving
    the recursion early is its [break]. *)
Fixpoint enumerate_subsets (x : vec) (wv : vec) (sizes : list nat)
    (num_full_subsets : nat) (num_samples_left : Q)
    (remaining_weight_vector : vec) (st : explainer)
    : option (nat * explainer) :=
  match sizes with
  | [] => Some (num_full_subsets, st)
  | subset_size :: rest =>
      let m := M (inst st) in
      let paired := bool_decide (subset_size <= num_paired_subset_sizes m) in
      let nsubsets := (nq (binom m subset_size) * (if paired then 2 else 1))%Q in
      rw ← remaining_weight_vector !! (subset_size - 1);
      if Qle_bool enum_threshold (num_samples_left * rw / nsubsets) then
        let remaining' :=
          if Qlt_bool rw 1 then vdiv remaining_weight_vector (1 - rw)
          else remaining_weight_vector in
        wk ← wv !! (subset_size - 1);
        let w := (wk / nq (binom m subset_size))%Q in
        let w := if paired then (w / 2)%Q else w in
        st' ← add_subsets x paired w (combinations (seq 0 m) subset_size) st;
        enumerate_subsets x wv rest (S num_full_subsets)
          (num_samples_left - nsubsets) remaining' st'
      else Some (num_full_subsets, st)
  end.

(** ** [explain]: random sampling of the remaining sizes *)

(** The [while samples_left > 0 and ind_set_pos < len(ind_set)] loop, by
    recursion on what is left of [ind_set]. *)
Fixpoint random_loop (x : vec) (num_full_subsets : nat) (ind_set : list nat)
    (samples_left : Z) (used_masks : gmap mask nat) (st : explainer) (g : rng)
    : option (explainer * rng) :=
  match ind_set with
  | [] => Some (st, g)
  | ind :: rest =>
      if bool_decide (0 < samples_left)%Z then
        let m := M (inst st) in
        let subset_size := ind + num_full_subsets + 1 in
        let '(perm, g') := random_permutation g m in
        let msk := mask_of m (take subset_size perm) in
        '(new_sample, used', left', st1) ←
          match used_masks !! msk with
          | None =>
              st' ← addsample st x msk 1;
              Some (true, <[msk := nsamplesAdded (buf st)]> used_masks,
                    (samples_left - 1)%Z, st')
          | Some i =>
              st' ← incr_weight st i;
              Some (false, used_masks, samples_left, st')
          end;
        '(left'', st2) ←
          (if bool_decide (0 < left')%Z
              && bool_decide (subset_size <= num_paired_subset_sizes m) then
             if (new_sample : bool) then
               st' ← addsample st1 x (complement msk) 1;
               Some ((left' - 1)%Z, st')
             else
               i ← used' !! msk;
               st' ← incr_weight st1 (i + 1);
               Some (left', st')
           else Some (left', st1));
        random_loop x num_full_subsets rest left'' used' st2 g'
      else Some (st, g)
  end.

(** [self.kernelWeights[nfixed_samples:] *= weight_left / sum(...)] *)
Definition normalize_random (st : explainer) (nfixed_samples : nat)
    (weight_left : Q) : explainer :=
  let kw := kernelWeights (buf st) in
  let c := (weight_left / qsum (drop nfixed_samples kw))%Q in
  with_kernelWeights st
    (take nfixed_samples kw ++ map (fun v => (v * c)%Q) (drop nfixed_samples kw)).

(** The result of the sampling phase, with the two counters the later
    statements refer to. *)
Record sampled := {
  s_state : explainer;
  s_rng : rng;
  s_num_full_subsets : nat;
  s_nfixed_samples : nat
}.

(** Everything between [self.allocate()] and [self.run()]. *)
Definition sampling (st : explainer) (g : rng) (x : vec) : option sampled :=
  let m := M (inst st) in
  let wv := weight_vector m in
  '(num_full, st1) ←
    enumerate_subsets x wv (seq 1 (num_subset_sizes m)) 0
      (inject_Z (nsamples (inst st))) wv st;
  let nfixed := nsamplesAdded (buf st1) in
  let samples_left := (nsamples (inst st1) - Z.of_nat nfixed)%Z in
  if bool_decide (num_full <> num_subset_sizes m) then
    let p := num_paired_subset_sizes m in
    let rem := map (fun v => (v / 2)%Q) (take p wv) ++ drop p wv in
    let rem := drop num_full rem in
    let rem := vdiv rem (qsum rem) in
    guard (0 <= samples_left)%Z;;
    let '(ind_set, g1) :=
      random_choice g (length rem) (Z.to_nat (4 * samples_left)) rem in
    '(st2, g2) ← random_loop x num_full ind_set samples_left ∅ st1 g1;
    let weight_left := qsum (drop num_full wv) in
    Some {| s_state := normalize_random st2 nfixed weight_left; s_rng := g2;
            s_num_full_subsets := num_full; s_nfixed_samples := nfixed |}
  else
    Some {| s_state := st1; s_rng := g;
            s_num_full_subsets := num_full; s_nfixed_samples := nfixed |}.

(** ** [explain] *)

(** [phi[i, d] = v] *)
Definition set_entry (phi : matrix) (i d : nat) (v : Q) : option matrix :=
  row ← phi !! i;
  guard (d < length row);;
  Some (<[i := <[d := v]> row]> phi).

(** [phi[i, d]] *)
Definition entry (phi : matrix) (i d : nat) : option Q :=
  row ← phi !! i; row !! d.

(** [phi[:, d]] *)
Definition column (d : nat) (phi : matrix) : vec :=
  map (fun row => nth d row 0%Q) phi.

(** [phi[rows, d] = vals] *)
Definition assign_col (phi : matrix) (rows : list nat) (d : nat) (vals : vec)
    : option matrix :=
  guard (length rows = length vals);;
  foldlM (fun phi '(i, v) => set_entry phi i d v) phi (zip rows vals).

(** What [explain] computes: the attributions, the variance array it builds
    next to them, the explainer and generator it leaves behind, and the
    warnings issued. *)
Record explained := {
  e_phi : matrix;
  e_phi_var : matrix;
  e_state : explainer;
  e_rng : rng;
  e_warnings : list string
}.

(** The first lines of [explain]: the varying groups and [f(x)]. *)
Definition prepare (st : explainer) (x : vec) : option explainer :=
  vi ← varying_groups (cfg st) x;
  vfg ← mapM (fun i => groups (cfg st) !! i) vi;
  fxv ← head (model (cfg st) [x]);
  Some (with_inst st
    {| varyingInds := vi; varyingFeatureGroups := vfg; M := length vfg;
       fx := fxv; l1_reg := l1_reg (inst st); nsamples := nsamples (inst st);
       max_samples := max_samples (inst st) |}).

(** The first lines of the [else] branch of [explain]: [self.l1_reg],
    [self.nsamples] and [self.max_samples]. *)
Definition configure (st : explainer) (kw : kwargs) : explainer :=
  let i := inst st in
  let '(ns, mx) := budget (M i) (default NsAuto (kw_nsamples kw)) in
  with_inst st
    {| varyingInds := varyingInds i;
       varyingFeatureGroups := varyingFeatureGroups i; M := M i; fx := fx i;
       l1_reg := default (PStr "auto") (kw_l1_reg kw);
       nsamples := ns; max_samples := mx |}.

(** The [else] branch of [explain] up to [self.run()]: the keyword
    arguments, the budget, [allocate] and the sampling phase. *)
Definition sample_coalitions (st : explainer) (g : rng) (x : vec) (kw : kwargs)
    : option sampled :=
  st ← allocate (configure st kw);
  sampling st g x.

(** The loop [for d in range(self.D)] over the model outputs. *)
Definition solve_all (st : explainer) (zeros : matrix)
    : option (matrix * matrix * list string) :=
  let i := inst st in
  let frac := (inject_Z (nsamples i) / inject_Z (max_samples i))%Q in
  foldlM (fun '(phi, phi_var, warns) d =>
      let '(ws, r) := solve st frac d in
      '(vphi, vphi_var) ← r;
      phi ← assign_col phi (varyingInds i) d vphi;
      phi_var ← assign_col phi_var (varyingInds i) d vphi_var;
      Some (phi, phi_var, warns ++ ws))
    (zeros, zeros, []) (seq 0 (D (cfg st))).

Definition explain_body (st : explainer) (g : rng) (x : vec) (kw : kwargs)
    : option explained :=
  st ← prepare st x;
  let c := cfg st in
  let zeros := replicate (groups_size c) (replicate (D c) 0%Q) in
  match M (inst st) with
  | 0 =>
      Some {| e_phi := zeros; e_phi_var := zeros; e_state := st; e_rng := g;
              e_warnings := [] |}
  | 1 =>
      let diff := vsub (map (link c) (fx (inst st))) (map (link c) (fnull c)) in
      i0 ← head (varyingInds (inst st));
      phi ← foldlM (fun phi d => v ← diff !! d; set_entry phi i0 d v)
                   zeros (seq 0 (D c));
      Some {| e_phi := phi; e_phi_var := zeros; e_state := st; e_rng := g;
              e_warnings := [] |}
  | _ =>
      s ← sample_coalitions st g x kw;
      st' ← run (s_state s);
      '(phi, phi_var, warns) ← solve_all st' zeros;
      Some {| e_phi := phi; e_phi_var := phi_var; e_state := st';
              e_rng := s_rng s; e_warnings := warns |}
  end.

(** [explain] returns [phi] alone. *)
Definition explain (st : explainer) (g : rng) (x : vec) (kw : kwargs)
    : option matrix :=
  e_phi <$> explain_body st g x kw.

(** ** [shap_values] (dense [numpy] input, no index column, no recurrent
    model) *)

(** What [explain] hands back: [phi], squeezed along the output axis by
    its last lines for a single-output model ([not self.vector_out]). *)
Inductive explanation :=
  | Squeezed (v : vec)
  | Unsqueezed (m : matrix).

(** [explain] with the last lines, [np.squeeze(phi, axis=1)], which raise
    unless there is one output. *)
Definition explain_out (vector_out : bool) (st : explainer) (g : rng)
    (x : vec) (kw : kwargs) : option (explanation * explainer * rng) :=
  e ← explain_body st g x kw;
  if vector_out then Some (Unsqueezed (e_phi e), e_state e, e_rng e)
  else
    guard (D (cfg st) = 1);;
    Some (Squeezed (column 0 (e_phi e)), e_state e, e_rng e).

(** [X] of one dimension (a single instance) or two (a batch). *)
Inductive shap_input :=
  | Instance (x : vec)
  | Batch (X : matrix).

(** The four shapes of the result: an array or one array per output, for
    an instance or for a batch. *)
Inductive shap_output :=
  | Single (v : vec)
  | PerOutput (vs : list vec)
  | SingleBatch (m : matrix)
  | PerOutputBatch (ms : list matrix).

Definition as_matrix (ex : explanation) : option matrix :=
  match ex with Unsqueezed m => Some m | Squeezed _ => None end.

Definition as_vector (ex : explanation) : option vec :=
  match ex with Squeezed v => Some v | Unsqueezed _ => None end.

(** The loop [for i in range(X.shape[0])] that collects [explanations]. *)
Definition explain_each (vector_out : bool) (st : explainer) (g : rng)
    (X : matrix) (kw : kwargs)
    : option (list explanation * explainer * rng) :=
  foldlM (fun '(exs, st, g) x =>
            '(ex, st, g) ← explain_out vector_out st g x kw;
            Some (exs ++ [ex], st, g))
         ([], st, g) X.

Definition shap_values (vector_out : bool) (st : explainer) (g : rng)
    (X : shap_input) (kw : kwargs)
    : option (shap_output * explainer * rng) :=
  match X with
  | Instance x =>
      '(ex, st', g') ← explain_out vector_out st g x kw;
      match ex with
      | Unsqueezed m =>
          Some (PerOutput (map (fun j => column j m) (seq 0 (D (cfg st)))),
                st', g')
      | Squeezed v => Some (Single v, st', g')
      end
  | Batch X =>
      '(exs, st', g') ← explain_each vector_out st g X kw;
      (* s = explanations[0].shape *)
      first ← head exs;
      match first with
      | Unsqueezed _ =>
          ms ← mapM as_matrix exs;
          Some (PerOutputBatch
                  (map (fun j => map (column j) ms) (seq 0 (D (cfg st)))),
                st', g')
      | Squeezed _ =>
          vs ← mapM as_vector exs;
          Some (SingleBatch vs, st', g')
      end
  end.

End Explainer.

(** ** A reference implementation of the library interface

    Exact Gauss-Jordan inversion, a tape-driven generator (each entry of the
    tape rotates [arange(n)]; every size draw is the first index), and
    selectors with a fixed answer: [lars_path] activates the first [r]
    features, [LassoLarsIC] keeps every feature, [Lasso] keeps none. The
    statements below hold for every implementation; this one evaluates them. *)

Module Reference.

Definition swap_rows (i j : nat) (A : matrix) : matrix :=
  match A !! i, A !! j with
  | Some ri, Some rj => <[i := rj]> (<[j := ri]> A)
  | _, _ => A
  end.

Definition find_pivot (c : nat) (A : matrix) : option nat :=
  fst <$> list_find
    (fun ir => Is_true (Nat.leb c (fst ir) && negb (Qeq_bool (nth c (snd ir) 0%Q) 0)))
    (imap pair A).

Definition eliminate (c : nat) (A : matrix) : option matrix :=
  r ← find_pivot c A;
  let A := swap_rows c r A in
  prow ← A !! c;
  let pivot := vdiv prow (nth c prow 0%Q) in
  Some (imap (fun i row =>
          if bool_decide (i = c) then pivot
          else vsub row (vscale (nth c row 0%Q) pivot)) A).

Definition identity (n : nat) : matrix :=
  map (fun i => map (fun j => if bool_decide (i = j) then 1%Q else 0%Q) (seq 0 n))
      (seq 0 n).

Definition gauss_jordan (A : matrix) : option matrix :=
  let n := length A in
  guard (Forall (fun r => length r = n) A);;
  R ← foldlM (fun A c => eliminate c A) (zip_with app A (identity n)) (seq 0 n);
  Some (map (fun row => map Qred (drop n row)) R).

Definition digit_of (a : Ascii.ascii) : option Z :=
  let n := Ascii.nat_of_ascii a in
  if bool_decide (48 <= n <= 57) then Some (Z.of_nat (n - 48)) else None.

Fixpoint parse_digits (acc : Z) (s : string) : option Z :=
  match s with
  | EmptyString => Some acc
  | String a s' => d ← digit_of a; parse_digits (10 * acc + d) s'
  end.

Definition parse_int (s : string) : option Z :=
  match s with
  | EmptyString => None
  | _ => parse_digits 0 s
  end.

Definition tape_permutation (g : list nat) (n : nat) : list nat * list nat :=
  match g with
  | [] => (seq 0 n, [])
  | r :: g' => (rotate r (seq 0 n), g')
  end.

Definition first_choice (g : list nat) (n k : nat) (p : vec) : list nat * list nat :=
  (replicate k 0, g).

Definition ncols (A : matrix) : nat := length (default [] (head A)).

Lemma first_choice_spec g n k p :
  0 < n ->
  length (first_choice g n k p).1 = k /\
  Forall (fun i => i < n) (first_choice g n k p).1.
Proof.
  intros Hn. simpl. split; [apply length_replicate|].
  apply Forall_replicate. exact Hn.
Qed.

Lemma tape_permutation_spec g n : (tape_permutation g n).1 ≡ₚ seq 0 n.
Proof.
  destruct g as [|r g]; simpl; [reflexivity|].
  unfold rotate. rewrite Permutation_app_comm. by rewrite take_drop.
Qed.

#[export] Instance externals : Externals := {|
  np_sqrt := fun q => q;
  linalg_inv := gauss_jordan;
  lars_path := fun A b r => Some (seq 0 (Z.to_nat r));
  LassoLarsIC := fun crit A b => Some (replicate (ncols A) 1%Q);
  Lasso := fun alpha A b => Some (replicate (ncols A) 0%Q);
  py_int := parse_int;
  rng := list nat;
  random_choice := first_choice;
  random_permutation := tape_permutation;
  random_choice_spec := first_choice_spec;
  random_permutation_spec := tape_permutation_spec;
  lars_path_spec := fun A b r act Heq =>
    eq_ind (seq 0 (Z.to_nat r)) (fun l => NoDup l) (NoDup_seq 0 (Z.to_nat r)) act
           (Some_inj _ _ Heq)
|}.

(** The model [f(x) = sum_j c_j * x_j], one output. *)
Definition linear_model (coef : vec) : matrix -> matrix :=
  map (fun row => [Qred (dot coef row)]).

(** One group per column. *)
Definition singleton_groups (p : nat) : list (list nat) :=
  map (fun i => [i]) (seq 0 p).

Definition no_kwargs : kwargs := {| kw_l1_reg := None; kw_nsamples := None |}.

(** The scenario of the specification: [f(x) = x0 + x1 + x2], identity
    link, the single background row [[0, 0, 0]] of weight 1. *)
Definition sum3 : explainer :=
  init (linear_model [1; 1; 1]%Q) (fun q => q) [[0; 0; 0]%Q] (fun q => q)
       (singleton_groups 3) [1%Q] 1.

Definition x123 : vec := [1; 2; 3]%Q.

(** The conversion of a float to an integer element type: truncation
    towards zero. *)
Definition to_int (q : Q) : Q := inject_Z (Z.quot (Qnum q) (Z.pos (Qden q))).

(** The same scenario with an integer background array. *)
Definition sum3_int : explainer :=
  init (linear_model [1; 1; 1]%Q) (fun q => q) [[0; 0; 0]%Q] to_int
       (singleton_groups 3) [1%Q] 1.

Definition x_half : vec := [3 # 2; 2; 3]%Q.

(** The explainer as [explain] leaves it after explaining [x] (the explainer
    itself when [explain] raises). *)
Definition after_explain (st : explainer) (g : list nat) (x : vec) (kw : kwargs)
    : explainer :=
  default st (e_state <$> explain_body st g x kw).

(** The state [explain] works on after its first lines. *)
Definition prepared (st : explainer) (x : vec) : explainer :=
  default st (prepare st x).

Definition x050 : vec := [0; 5; 0]%Q.

(** The explainer after [allocate], ready for the sampling phase. *)
Definition allocated (st : explainer) (x : vec) (kw : kwargs) : explainer :=
  let st1 := configure (prepared st x) kw in
  default st1 (allocate st1).

(** [l1_reg=0.1]: the fixed-penalty selector. *)
Definition lasso_kwargs : kwargs :=
  {| kw_l1_reg := Some (PNum (1 # 10)); kw_nsamples := None |}.

End Reference.

(** * Properties *)

(** ** Loops that may raise *)

Lemma foldlM_app {A B} (f : B -> A -> option B) b l1 l2 :
  foldlM f b (l1 ++ l2) = (b' ← foldlM f b l1; foldlM f b' l2).
Proof.
  revert b. induction l1 as [|a l1 IH]; intros b; simpl; [done|].
  destruct (f b a) as [b'|]; simpl; [apply IH|done].
Qed.

(** An invariant of the loop body is an invariant of the loop. *)
Lemma foldlM_invariant {A B} (I : B -> Prop) (f : B -> A -> option B) l :
  (forall b a b', a ∈ l -> I b -> f b a = Some b' -> I b') ->
  forall b b', I b -> foldlM f b l = Some b' -> I b'.
Proof.
  induction l as [|a l IH]; intros Hstep b b' Hb Hrun; simpl in Hrun.
  - by simplify_eq.
  - destruct (f b a) as [b1|] eqn:Hf; simpl in Hrun; [|done].
    eapply IH; [| |exact Hrun].
    + intros b2 a2 b3 Hin. apply Hstep. by right.
    + eapply Hstep; [by left|exact Hb|exact Hf].
Qed.

(** ** The solver *)


Section Solver.
Context `{Externals}.


(** C7. When the feature-selection step leaves no feature ([nonzero_inds]
    is empty), [solve] returns the all-zero attribution vector of length [M]
    with the all-ones variance placeholder of length [M]. The statement holds
    for every implementation of the library interface, also one whose
    [linalg_inv] always raises: the least-squares solve is not reached. *)
Theorem solve_empty_support st fraction_evaluated dim eyAdj :
  eyAdj_of st dim = Some eyAdj ->
  support st fraction_evaluated eyAdj dim = Some [] ->
  (solve st fraction_evaluated dim).2
  = Some (replicate (M (inst st)) 0%Q, replicate (M (inst st)) 1%Q).
Proof.
  intros HeyAdj Hsupp. unfold solve. rewrite HeyAdj. simpl.
  rewrite Hsupp. reflexivity.
Qed.

Lemma Qlt_bool_iff a b : Qlt_bool a b = true <-> (a < b)%Q.
Proof.
  unfold Qlt_bool. rewrite negb_true_iff.
  destruct (Qle_bool b a) eqn:Hle.
  - apply Qle_bool_iff in Hle. split; [done|]. intros Hlt.
    exfalso. by apply (Qlt_not_le _ _ Hlt).
  - split; [|done]. intros _. apply Qnot_le_lt. intros Hle'.
    apply Qle_bool_iff in Hle'. congruence.
Qed.

Lemma is_str_iff s v : is_str s v = true <-> v = PStr s.
Proof.
  destruct v as [s'| |]; simpl; try (split; [done|intros; discriminate]).
  rewrite String.eqb_eq. split; [by intros ->|by intros [= ->]].
Qed.

Lemma not_in_auto_False_0_iff v :
  not_in_auto_False_0 v = true <-> explicitly_requested v.
Proof.
  unfold explicitly_requested. destruct v as [s|b|q]; simpl.
  - rewrite negb_true_iff, String.eqb_neq. split.
    + intros Hne. split; [|tauto]. by intros [= ->].
    + intros [Hne _] ->. by apply Hne.
  - destruct b; simpl; split.
    + intros _. split; [done|discriminate].
    + done.
    + discriminate.
    + intros [_ Hoff]. by exfalso.
  - rewrite negb_true_iff. split.
    + intros Hq. split; [done|]. intros Hz. apply Qeq_bool_iff in Hz. congruence.
    + intros [_ Hq]. destruct (Qeq_bool q 0) eqn:Hz; [|done].
      exfalso. apply Hq. by apply Qeq_bool_iff.
Qed.

(** C8. The feature-selection block of [solve] runs exactly when a mode
    other than the legacy default and other than "off" is requested, or when
    the mode is [auto] and [fraction_evaluated < 0.2]: then [solve] works
    with the features the selection keeps, otherwise with every feature. In
    the [auto] mode [solve] issues the deprecation warning, and the
    selection, when it runs, is [LassoLarsIC] with the criterion [aic]; in
    every other mode no warning is issued. *)
Theorem selection_gate st fraction_evaluated dim eyAdj :
  eyAdj_of st dim = Some eyAdj ->
  let l1 := l1_reg (inst st) in
  let gate := explicitly_requested l1 \/
              (l1 = PStr "auto" /\ (fraction_evaluated < 2 # 10)%Q) in
  (selection_runs l1 fraction_evaluated = true <-> gate) /\
  (gate ->
     (solve st fraction_evaluated dim).2 =
       ('(mask_aug, eyAdj_aug) ← augmented_system st eyAdj dim;
        nonzero_inds ← choose_support l1 mask_aug eyAdj_aug;
        solve_with st eyAdj dim nonzero_inds)) /\
  (~ gate ->
     (solve st fraction_evaluated dim).2 =
       solve_with st eyAdj dim (seq 0 (M (inst st)))) /\
  (l1 = PStr "auto" ->
     (solve st fraction_evaluated dim).1 = [deprecation_warning] /\
     ((fraction_evaluated < 2 # 10)%Q ->
        (solve st fraction_evaluated dim).2 =
          ('(mask_aug, eyAdj_aug) ← augmented_system st eyAdj dim;
           coef ← LassoLarsIC "aic" mask_aug eyAdj_aug;
           solve_with st eyAdj dim (nonzero coef)))) /\
  (l1 <> PStr "auto" -> (solve st fraction_evaluated dim).1 = []).
Proof.
  intros Hey l1 gate.
  assert (Hgate : selection_runs l1 fraction_evaluated = true <-> gate).
  { unfold selection_runs, gate. rewrite orb_true_iff, andb_true_iff.
    rewrite not_in_auto_False_0_iff, Qlt_bool_iff, is_str_iff. tauto. }
  assert (Hon : selection_runs l1 fraction_evaluated = true ->
     (solve st fraction_evaluated dim).2 =
       ('(mask_aug, eyAdj_aug) ← augmented_system st eyAdj dim;
        nonzero_inds ← choose_support l1 mask_aug eyAdj_aug;
        solve_with st eyAdj dim nonzero_inds)).
  { intros Hruns. unfold solve, support, solve_with. rewrite Hey. simpl.
    fold l1. rewrite Hruns.
    destruct (augmented_system st eyAdj dim) as [[A b]|]; [|done].
    simpl. by destruct (choose_support l1 A b). }
  split; [exact Hgate|]. split; [|split; [|split]].
  - intros Hg. apply Hon. by apply Hgate.
  - intros Hg. unfold solve, support, solve_with. rewrite Hey. simpl.
    fold l1. destruct (selection_runs l1 fraction_evaluated) eqn:Hruns.
    + exfalso. apply Hg. by apply Hgate.
    + reflexivity.
  - intros Hauto. split.
    + unfold solve. rewrite Hey. simpl. fold l1. by rewrite Hauto.
    + intros Hlt. rewrite Hon.
      * rewrite Hauto.
        destruct (augmented_system st eyAdj dim) as [[A b]|]; [|done].
        simpl. by destruct (LassoLarsIC "aic" A b).
      * apply Hgate. right. done.
  - intros Hne. unfold solve. rewrite Hey. simpl. fold l1.
    destruct (is_str "auto" l1) eqn:Hs; [|done].
    apply is_str_iff in Hs. done.
Qed.

End Solver.

(** C8 at the scenario of the specification after [explain] with the
    default mode: every subset was enumerated, so the warning is issued and
    the solve works with every feature. *)
Lemma selection_gate_witness :
  let st := Reference.after_explain Reference.sum3 [] Reference.x123
              Reference.no_kwargs in
  (solve (H := Reference.externals) st 1 0).1 = [deprecation_warning] /\
  (solve (H := Reference.externals) st 1 0).2
  = solve_with (H := Reference.externals) st (default [] (eyAdj_of st 0)) 0
      (seq 0 (M (inst st))).
Proof.
  intros st.
  assert (Hey : eyAdj_of st 0 = Some (default [] (eyAdj_of st 0)))
    by (vm_compute; reflexivity).
  assert (Hl1 : l1_reg (inst st) = PStr "auto") by (vm_compute; reflexivity).
  destruct (selection_gate (H := Reference.externals) st 1 0 _ Hey)
    as (_ & _ & Hoff & Hauto & _).
  split.
  - exact (proj1 (Hauto Hl1)).
  - apply Hoff. rewrite Hl1. intros [[Hne _]|[_ Hlt]].
    + by apply Hne.
    + vm_compute in Hlt. discriminate.
Defined.

(** [solve_empty_support] at the scenario of the specification with
    [l1_reg=0.1], where the reference [Lasso] keeps no feature. *)
Lemma solve_empty_support_witness :
  let st := Reference.after_explain Reference.sum3 [] Reference.x123
              Reference.lasso_kwargs in
  (solve (H := Reference.externals) st 1 0).2 = Some ([0; 0; 0]%Q, [1; 1; 1]%Q).
Proof.
  intros st.
  apply (solve_empty_support (H := Reference.externals) st 1 0
           (default [] (eyAdj_of st 0))).
  - vm_compute. reflexivity.
  - vm_compute. reflexivity.
Defined.

(** ** The varying groups *)

(** Indices kept by a filter over an enumerated list ([np.nonzero]) are
    distinct and in range. *)
Lemma omap_imap_indices {A} (f : nat * A -> option nat) (l : list A) k :
  (forall i a j, f (i, a) = Some j -> j = i) ->
  NoDup (omap f (imap (fun i a => (k + i, a)) l)) /\
  Forall (fun j => k <= j < k + length l) (omap f (imap (fun i a => (k + i, a)) l)).
Proof.
  intros Hf. revert k. induction l as [|a l IH]; intros k.
  - simpl. split; constructor.
  - rewrite imap_cons.
    assert (Hext : imap ((fun i a0 => (k + i, a0)) ∘ S) l
                   = imap (fun i a0 => (S k + i, a0)) l).
    { apply imap_ext. intros i b _. simpl. f_equal. lia. }
    rewrite Hext. destruct (IH (S k)) as [Hnd Hall].
    simpl. destruct (f (k + 0, a)) as [j|] eqn:Hj.
    + apply Hf in Hj. subst j. split.
      * constructor; [|exact Hnd].
        intros Hin. rewrite Forall_forall in Hall.
        specialize (Hall _ Hin). lia.
      * constructor; [simpl; lia|].
        eapply Forall_impl; [exact Hall|]. simpl. intros; lia.
    + split; [exact Hnd|].
      eapply Forall_impl; [exact Hall|]. simpl. intros; lia.
Qed.

Lemma varying_groups_spec c x vi :
  varying_groups c x = Some vi ->
  NoDup vi /\ Forall (fun i => i < groups_size c) vi.
Proof.
  unfold varying_groups. intros Hrun.
  destruct (mapM _ (seq 0 (groups_size c))) as [varying|] eqn:Hm;
    simpl in Hrun; [|done].
  apply length_mapM in Hm. rewrite length_seq in Hm.
  injection Hrun as <-.
  pose proof (omap_imap_indices
    (fun '(i, b) => if (b : bool) then Some i else None) varying 0) as Hind.
  simpl in Hind. rewrite <- Hm in Hind.
  destruct Hind as [Hnd Hall].
  { intros i [] j; [by intros [= ->]|done]. }
  split; [exact Hnd|].
  eapply Forall_impl; [exact Hall|]. simpl. intros; lia.
Qed.

Lemma nonzero_NoDup v : NoDup (nonzero v).
Proof.
  pose proof (omap_imap_indices
    (fun '(i, c) => if Qeq_bool c 0 then None else Some i) v 0) as Hind.
  simpl in Hind. apply Hind.
  intros i c j. by destruct (Qeq_bool c 0); [|intros [= ->]].
Qed.

Lemma prepare_spec st x st' :
  prepare st x = Some st' ->
  cfg st' = cfg st /\ buf st' = buf st /\
  M (inst st') = length (varyingInds (inst st')) /\
  NoDup (varyingInds (inst st')) /\
  Forall (fun i => i < groups_size (cfg st)) (varyingInds (inst st')).
Proof.
  unfold prepare. intros Hrun.
  destruct (varying_groups (cfg st) x) as [vi|] eqn:Hvi; simpl in Hrun; [|done].
  destruct (mapM _ vi) as [vfg|] eqn:Hvfg; simpl in Hrun; [|done].
  destruct (head _) as [fxv|]; simpl in Hrun; [|done].
  injection Hrun as <-. simpl.
  apply length_mapM in Hvfg. apply varying_groups_spec in Hvi.
  destruct Hvi as [Hnd Hall]. done.
Qed.

(** ** The degenerate cases of [explain] *)

(** The loop [for d in range(self.D): phi[i0, d] = diff[d]]. *)
Lemma fill_row (phi : matrix) (i0 : nat) (row diff : vec) (k : nat) :
  phi !! i0 = Some row -> k <= length row -> k <= length diff ->
  exists phi' row',
    foldlM (fun phi d => v ← diff !! d; set_entry phi i0 d v) phi (seq 0 k)
      = Some phi' /\
    length phi' = length phi /\
    (forall i, i <> i0 -> phi' !! i = phi !! i) /\
    phi' !! i0 = Some row' /\ length row' = length row /\
    (forall d, row' !! d = if decide (d < k) then diff !! d else row !! d).
Proof.
  intros Hrow. induction k as [|k IH]; intros Hk Hd.
  - exists phi, row. simpl. repeat split; try done.
  - destruct IH as (phi1 & row1 & Hrun & Hlen & Hother & Hrow1 & Hlen1 & Hval);
      [lia|lia|].
    destruct (lookup_lt_is_Some_2 diff k) as [v Hv]; [lia|].
    exists (<[i0 := <[k := v]> row1]> phi1), (<[k := v]> row1).
    rewrite seq_S, foldlM_app, Hrun. simpl.
    unfold set_entry. rewrite Hv. simpl. rewrite Hrow1. simpl.
    rewrite option_guard_True by lia. simpl.
    split; [done|]. split; [by rewrite length_insert|].
    split; [intros i Hi; rewrite list_lookup_insert_ne by done; by apply Hother|].
    split; [apply list_lookup_insert_eq; rewrite Hlen;
            by eapply lookup_lt_Some|].
    split; [by rewrite length_insert|].
    intros d. destruct (decide (d = k)) as [->|Hne].
    + rewrite list_lookup_insert_eq by lia. rewrite decide_True by lia. done.
    + rewrite list_lookup_insert_ne by done. rewrite Hval.
      repeat case_decide; try done; lia.
Qed.

Section Degenerate.
Context `{Externals}.

(** C2. When no group varies, [explain] returns the all-zero array; when
    exactly one group [i0] varies, that row of [phi] is
    [link(fx[d]) - link(fnull[d])] in every output [d] and all other rows
    are zero. In both cases the explainer's buffers, the generator and the
    warnings are as they were: no sample is drawn and [solve] is not called. *)
Theorem degenerate_cases st g x kw st' :
  prepare st x = Some st' ->
  length (fx (inst st')) = D (cfg st) ->
  length (fnull (cfg st)) = D (cfg st) ->
  let zeros := replicate (groups_size (cfg st)) (replicate (D (cfg st)) 0%Q) in
  (M (inst st') = 0 ->
     explain_body st g x kw
     = Some {| e_phi := zeros; e_phi_var := zeros; e_state := st'; e_rng := g;
               e_warnings := [] |}) /\
  (M (inst st') = 1 ->
     exists i0 r,
       varyingInds (inst st') = [i0] /\
       explain_body st g x kw = Some r /\
       e_state r = st' /\ buf st' = buf st /\ e_rng r = g /\
       e_warnings r = [] /\
       forall i d fxd fnd,
         i < groups_size (cfg st) ->
         fx (inst st') !! d = Some fxd -> fnull (cfg st) !! d = Some fnd ->
         entry (e_phi r) i d
         = Some (if decide (i = i0)
                 then (link (cfg st) fxd - link (cfg st) fnd)%Q else 0%Q)).
Proof.
  intros Hprep Hfx Hfn zeros.
  destruct (prepare_spec _ _ _ Hprep) as (Hcfg & Hbuf & HM & Hnd & Hall).
  unfold explain_body. rewrite Hprep. simpl. rewrite Hcfg. fold zeros. split.
  - intros ->. reflexivity.
  - intros HM1. rewrite HM1.
    destruct (varyingInds (inst st')) as [|i0 [|? ?]] eqn:Hvi;
      simpl in HM; try lia.
    apply Forall_cons in Hall as [Hi0 _].
    set (diff := vsub (map (link (cfg st)) (fx (inst st')))
                      (map (link (cfg st)) (fnull (cfg st)))).
    assert (Hdl : length diff = D (cfg st)).
    { unfold diff, vsub. rewrite length_zip_with, !length_map. lia. }
    destruct (fill_row zeros i0 (replicate (D (cfg st)) 0%Q) diff (D (cfg st)))
      as (phi' & row' & Hrun & Hlen & Hother & Hrow' & Hlen' & Hval).
    { unfold zeros. by apply lookup_replicate_2. }
    { by rewrite length_replicate. }
    { lia. }
    exists i0. eexists. split; [done|]. simpl. rewrite Hrun. simpl.
    split; [reflexivity|]. simpl. repeat split; try done.
    intros i d fxd fnd Hi Hfxd Hfnd. unfold entry.
    assert (Hd : d < D (cfg st)).
    { apply lookup_lt_Some in Hfnd. lia. }
    case_decide as Hii.
    + subst i. rewrite Hrow'. simpl. rewrite Hval, decide_True by done.
      unfold diff, vsub. rewrite lookup_zip_with, !list_lookup_fmap.
      rewrite Hfxd, Hfnd. reflexivity.
    + rewrite Hother by done. unfold zeros.
      rewrite lookup_replicate_2 by done. simpl.
      by apply lookup_replicate_2.
Qed.

End Degenerate.

(** [degenerate_cases] at the scenario of the specification, for the
    instance [[0, 5, 0]] in which the second group alone varies. *)
Lemma degenerate_cases_witness :
  let st' := Reference.prepared Reference.sum3 Reference.x050 in
  M (inst st') = 1 /\
  exists r,
    explain_body (H := Reference.externals) Reference.sum3 [] Reference.x050
      Reference.no_kwargs = Some r /\
    e_phi r = [[0]; [5]; [0]]%Q.
Proof.
  intros st'.
  destruct (degenerate_cases (H := Reference.externals) Reference.sum3 []
              Reference.x050 Reference.no_kwargs st')
    as [_ Hone]; [vm_compute; reflexivity ..|].
  split; [reflexivity|].
  destruct (Hone eq_refl) as (i0 & r & _ & Hrun & _).
  exists r. split; [exact Hrun|].
  assert (Hphi : e_phi <$> explain_body (H := Reference.externals)
                   Reference.sum3 [] Reference.x050 Reference.no_kwargs
                 = Some [[0]; [5]; [0]]%Q) by (vm_compute; reflexivity).
  rewrite Hrun in Hphi. simpl in Hphi. congruence.
Defined.

(** ** Determinism *)

Lemma allocate_ext st1 st2 :
  cfg st1 = cfg st2 -> inst st1 = inst st2 -> allocate st1 = allocate st2.
Proof.
  intros Hc Hi. unfold allocate, with_buf. by rewrite Hc, Hi.
Qed.

Section Determinism.
Context `{Externals}.

Lemma sample_coalitions_ext st1 st2 g x kw :
  cfg st1 = cfg st2 ->
  varyingInds (inst st1) = varyingInds (inst st2) ->
  varyingFeatureGroups (inst st1) = varyingFeatureGroups (inst st2) ->
  M (inst st1) = M (inst st2) ->
  fx (inst st1) = fx (inst st2) ->
  sample_coalitions st1 g x kw = sample_coalitions st2 g x kw.
Proof.
  intros Hc Hvi Hvfg HM Hfx. unfold sample_coalitions, configure.
  rewrite Hvi, Hvfg, HM, Hfx.
  destruct (budget _ _) as [ns mx].
  erewrite allocate_ext; [reflexivity|exact Hc|reflexivity].
Qed.

(** C9. [explain] is a function of the generator state, the instance, the
    keyword arguments and the fields [__init__] fixed (model, link,
    background data and weights, baseline): two explainers that agree on
    these return the same [phi] from the same generator state and leave the
    generator in the same state, whatever the earlier calls left in the
    per-instance fields and buffers. The generator is consulted by
    [np.random.choice] and [np.random.permutation] alone. *)
Theorem explain_deterministic st1 st2 g x kw :
  cfg st1 = cfg st2 ->
  explain st1 g x kw = explain st2 g x kw /\
  e_rng <$> explain_body st1 g x kw = e_rng <$> explain_body st2 g x kw.
Proof.
  intros Hc. unfold explain, explain_body, prepare. rewrite Hc.
  destruct (varying_groups (cfg st2) x) as [vi|]; simpl; [|done].
  destruct (mapM _ vi) as [vfg|]; simpl; [|done].
  destruct (head _) as [fxv|]; simpl; [|done].
  rewrite Hc.
  destruct (length vfg) as [|[|n]] eqn:Hn; [done| |].
  - destruct (head vi); simpl; [|done].
    destruct (foldlM _ _ _); done.
  - match goal with
    | |- context [sample_coalitions ?a g x kw] =>
        match goal with
        | |- context [sample_coalitions ?b g x kw] =>
            tryif constr_eq a b then fail
            else rewrite (sample_coalitions_ext a b g x kw) by (simpl; congruence)
        end
    end.
    done.
Qed.

End Determinism.

(** [explain_deterministic] for the fresh explainer of the scenario and the
    same explainer after an earlier call has filled its buffers. *)
Lemma explain_deterministic_witness :
  let st1 := Reference.sum3 in
  let st2 := Reference.after_explain Reference.sum3 [2; 1] Reference.x123
               Reference.lasso_kwargs in
  explain (H := Reference.externals) st1 [1; 0; 2] Reference.x123
    Reference.no_kwargs
  = explain (H := Reference.externals) st2 [1; 0; 2] Reference.x123
      Reference.no_kwargs.
Proof.
  intros st1 st2.
  apply (explain_deterministic (H := Reference.externals) st1 st2).
  vm_compute. reflexivity.
Defined.

(** ** The sample budget *)

Lemma num_subset_sizes_eq m : num_subset_sizes m = m / 2.
Proof.
  unfold num_subset_sizes, nq, Qceiling, Qfloor.
  cbn [Qminus Qplus Qopp Qdiv Qmult Qinv inject_Z Qnum Qden].
  change (Z.pos (1 * 1 * 2)) with 2%Z.
  apply Nat2Z.inj. rewrite Nat2Z.inj_div.
  Z.to_euclidean_division_equations. lia.
Qed.

Lemma num_paired_subset_sizes_eq m : num_paired_subset_sizes m = (m - 1) / 2.
Proof.
  unfold num_paired_subset_sizes, nq, Qfloor.
  cbn [Qminus Qplus Qopp Qdiv Qmult Qinv inject_Z Qnum Qden].
  change (Z.pos (1 * 1 * 2)) with 2%Z.
  apply Nat2Z.inj. rewrite Nat2Z.inj_div.
  Z.to_euclidean_division_equations. lia.
Qed.

(** What every step of the sampling phase keeps: the fields of [__init__]
    and of the instance, the capacity of the buffers, and a number of
    populated rows within that capacity. *)
Definition within_capacity (st0 st : explainer) : Prop :=
  cfg st = cfg st0 /\ inst st = inst st0 /\
  length (maskMatrix (buf st)) = length (maskMatrix (buf st0)) /\
  length (kernelWeights (buf st)) = length (kernelWeights (buf st0)) /\
  nsamplesAdded (buf st) <= length (maskMatrix (buf st0)).

Lemma within_capacity_refl st :
  nsamplesAdded (buf st) <= length (maskMatrix (buf st)) ->
  within_capacity st st.
Proof. by unfold within_capacity. Qed.

Lemma addsample_capacity st0 st x m w st' :
  within_capacity st0 st -> addsample st x m w = Some st' ->
  within_capacity st0 st'.
Proof.
  intros (Hc & Hi & Hlm & Hlk & Hn). unfold addsample. intros Hrun.
  destruct (foldlM _ (synth_data (buf st)) _) as [sd|]; simpl in Hrun; [|done].
  simplify_option_eq. unfold within_capacity. simpl.
  rewrite !length_insert. repeat split; try done. lia.
Qed.

Lemma incr_weight_capacity st0 st i st' :
  within_capacity st0 st -> incr_weight st i = Some st' ->
  within_capacity st0 st'.
Proof.
  intros (Hc & Hi & Hlm & Hlk & Hn). unfold incr_weight. intros Hrun.
  simplify_option_eq. unfold within_capacity. simpl.
  rewrite length_insert. done.
Qed.

Lemma add_subsets_capacity st0 x paired w combs st st' :
  within_capacity st0 st -> add_subsets x paired w combs st = Some st' ->
  within_capacity st0 st'.
Proof.
  unfold add_subsets. intros Hst.
  apply (foldlM_invariant (within_capacity st0)); [|exact Hst].
  intros b inds b' _ Hb Hstep.
  destruct (addsample b x _ w) as [b1|] eqn:H1; simpl in Hstep; [|done].
  pose proof (addsample_capacity _ _ _ _ _ _ Hb H1) as Hb1.
  destruct paired; [|by simplify_eq].
  by eapply addsample_capacity.
Qed.

Lemma enumerate_subsets_capacity st0 x wv sizes nf left rem st nf' st' :
  within_capacity st0 st ->
  enumerate_subsets x wv sizes nf left rem st = Some (nf', st') ->
  within_capacity st0 st'.
Proof.
  revert nf left rem st.
  induction sizes as [|k sizes IH]; intros nf left rem st Hst Hrun;
    simpl in Hrun.
  - by simplify_eq.
  - destruct (rem !! _) as [rw|]; simpl in Hrun; [|done].
    destruct (Qle_bool _ _); [|by simplify_eq].
    destruct (wv !! _) as [wk|]; simpl in Hrun; [|done].
    destruct (add_subsets _ _ _ _ _) as [st1|] eqn:Hadd; simpl in Hrun; [|done].
    eapply IH; [|exact Hrun].
    by eapply add_subsets_capacity.
Qed.

Section Budget.
Context `{Externals}.

Lemma random_loop_capacity st0 x nf ind_set left used st g st' g' :
  within_capacity st0 st ->
  random_loop x nf ind_set left used st g = Some (st', g') ->
  within_capacity st0 st'.
Proof.
  revert left used st g.
  induction ind_set as [|ind rest IH]; intros left used st g Hst Hrun;
    simpl in Hrun.
  - by simplify_eq.
  - case_bool_decide; [|by simplify_eq].
    destruct (random_permutation g (M (inst st))) as [perm g1].
    set (msk := mask_of (M (inst st)) (take (ind + nf + 1) perm)) in *.
    destruct (used !! msk) as [i|] eqn:Hused.
    + destruct (incr_weight st i) as [st1|] eqn:H1; simpl in Hrun; [|done].
      pose proof (incr_weight_capacity _ _ _ _ Hst H1) as Hst1.
      destruct (bool_decide (0 < left)%Z && _); simpl in Hrun.
      * rewrite Hused in Hrun. simpl in Hrun.
        destruct (incr_weight st1 (i + 1)) as [st2|] eqn:H2;
          simpl in Hrun; [|done].
        eapply IH; [|exact Hrun]. by eapply incr_weight_capacity.
      * eapply IH; [|exact Hrun]. done.
    + destruct (addsample st x msk 1) as [st1|] eqn:H1; simpl in Hrun; [|done].
      pose proof (addsample_capacity _ _ _ _ _ _ Hst H1) as Hst1.
      destruct (bool_decide (0 < left - 1)%Z && _); simpl in Hrun.
      * destruct (addsample st1 x _ 1) as [st2|] eqn:H2;
          simpl in Hrun; [|done].
        eapply IH; [|exact Hrun]. by eapply addsample_capacity.
      * eapply IH; [|exact Hrun]. done.
Qed.

Lemma normalize_random_capacity st0 st nfixed wl :
  within_capacity st0 st -> within_capacity st0 (normalize_random st nfixed wl).
Proof.
  intros (Hc & Hi & Hlm & Hlk & Hn). unfold within_capacity. simpl.
  rewrite length_app, length_map, length_take, length_drop.
  repeat split; try done. lia.
Qed.

Lemma sampling_capacity st g x s :
  nsamplesAdded (buf st) <= length (maskMatrix (buf st)) ->
  sampling st g x = Some s -> within_capacity st (s_state s).
Proof.
  intros Hn. unfold sampling. intros Hrun.
  destruct (enumerate_subsets _ _ _ _ _ _ _) as [[nf st1]|] eqn:Henum;
    simpl in Hrun; [|done].
  pose proof (enumerate_subsets_capacity st _ _ _ _ _ _ _ _ _
                (within_capacity_refl _ Hn) Henum) as Hst1.
  case_bool_decide; [|by simplify_eq].
  case_guard; simpl in Hrun; [|done].
  destruct (random_choice _ _ _ _) as [ind_set g1].
  destruct (random_loop _ _ _ _ _ _ _) as [[st2 g2]|] eqn:Hloop;
    simpl in Hrun; [|done].
  simplify_eq. simpl. apply normalize_random_capacity.
  by eapply random_loop_capacity.
Qed.


End Budget.


(** ** Coalition masks *)

Lemma length_mask_of m inds : length (mask_of m inds) = m.
Proof.
  induction inds as [|i inds IH]; simpl.
  - apply length_replicate.
  - by rewrite length_insert.
Qed.

Lemma lookup_mask_of m inds i :
  i < m -> mask_of m inds !! i = Some (bool_decide (i ∈ inds)).
Proof.
  intros Hi. induction inds as [|j inds IH]; simpl.
  - by rewrite lookup_replicate_2.
  - destruct (decide (j = i)) as [->|Hne].
    + rewrite list_lookup_insert_eq by (by rewrite length_mask_of).
      f_equal. symmetry. apply bool_decide_eq_true. by left.
    + rewrite list_lookup_insert_ne by done. rewrite IH. f_equal.
      apply bool_decide_ext. rewrite elem_of_cons. split; [by right|].
      by intros [->|?].
Qed.

Lemma msize_cons b m : msize (b :: m) = (if b then 1 else 0) + msize m.
Proof.
  unfold msize. rewrite filter_cons.
  destruct b; [rewrite decide_True by done|rewrite decide_False by done]; done.
Qed.

Lemma msize_le m : msize m <= length m.
Proof.
  induction m as [|b m IH]; [done|]. rewrite msize_cons. simpl.
  destruct b; simpl; lia.
Qed.

Lemma msize_insert_true m i :
  m !! i = Some false -> msize (<[i := true]> m) = S (msize m).
Proof.
  revert i. induction m as [|b m IH]; intros i Hi; [done|].
  destruct i as [|i]; simpl in *.
  - simplify_eq. by rewrite !msize_cons.
  - rewrite !msize_cons, IH by done. lia.
Qed.

Lemma msize_replicate_false m : msize (replicate m false) = 0.
Proof.
  induction m as [|m IH]; [done|]. simpl. by rewrite msize_cons, IH.
Qed.

(** A mask built from distinct indices in range has as many ones as there
    are indices. *)
Lemma msize_mask_of m inds :
  NoDup inds -> Forall (fun i => i < m) inds ->
  msize (mask_of m inds) = length inds.
Proof.
  induction 1 as [|i inds Hni Hnd IH]; intros Hall; simpl.
  - apply msize_replicate_false.
  - apply Forall_cons in Hall as [Hi Hall].
    rewrite msize_insert_true, IH; [done|done|].
    rewrite lookup_mask_of by done. f_equal.
    by apply bool_decide_eq_false.
Qed.

Lemma length_complement m : length (complement m) = length m.
Proof. apply length_map. Qed.

Lemma msize_complement m : msize (complement m) = length m - msize m.
Proof.
  induction m as [|b m IH]; [done|].
  unfold complement in *. simpl. rewrite !msize_cons, IH.
  pose proof (msize_le m). destruct b; simpl; lia.
Qed.

Lemma complement_involutive m : complement (complement m) = m.
Proof.
  unfold complement. rewrite <- list_fmap_compose.
  rewrite <- (list_fmap_id m) at 2. apply list_fmap_ext.
  intros _ b _. apply negb_involutive.
Qed.

(** ** [itertools.combinations] *)

Lemma combinations_spec {A} (l : list A) k c :
  c ∈ combinations l k -> length c = k /\ c `sublist_of` l.
Proof.
  revert k c. induction l as [|x l IH]; intros k c Hc.
  - destruct k; simpl in Hc.
    + apply list_elem_of_singleton in Hc as ->. done.
    + by apply elem_of_nil in Hc.
  - destruct k as [|k]; simpl in Hc.
    + apply list_elem_of_singleton in Hc as ->. split; [done|].
      apply sublist_nil_l.
    + apply elem_of_app in Hc as [Hc|Hc].
      * apply list_elem_of_fmap in Hc as (c' & -> & Hc').
        destruct (IH _ _ Hc') as [Hlen Hsub]. simpl.
        split; [by rewrite Hlen|]. by apply sublist_skip.
      * destruct (IH _ _ Hc) as [Hlen Hsub].
        split; [done|]. by apply sublist_cons.
Qed.

Lemma combinations_length {A} (l : list A) k :
  length (combinations l k) = binom (length l) k.
Proof.
  revert k. induction l as [|x l IH]; intros [|k]; simpl; try done.
  by rewrite length_app, length_map, !IH.
Qed.

Lemma combinations_seq m k c :
  c ∈ combinations (seq 0 m) k ->
  length c = k /\ NoDup c /\ Forall (fun i => i < m) c.
Proof.
  intros Hc. apply combinations_spec in Hc as [Hlen Hsub].
  split; [done|]. split.
  - eapply sublist_NoDup; [|exact Hsub]. apply NoDup_seq.
  - apply Forall_forall. intros i Hi.
    eapply elem_of_sublist in Hi; [|exact Hsub].
    apply elem_of_seq in Hi. lia.
Qed.

(** * Further properties of the explainer's methods *)

(** ** [addsample] on the populated rows *)

Lemma addsample_rows st x m w st' :
  buffers_aligned st ->
  addsample st x m w = Some st' ->
  rows st' = rows st ++ [(m, w)] /\
  length m = M (inst st) /\
  cfg st' = cfg st /\ inst st' = inst st /\
  buffers_aligned st' /\
  nsamplesAdded (buf st') = S (nsamplesAdded (buf st)) /\
  length (maskMatrix (buf st')) = length (maskMatrix (buf st)).
Proof.
  unfold buffers_aligned, addsample. intros Hal Hrun.
  destruct (foldlM _ (synth_data (buf st)) _) as [sd|]; simpl in Hrun; [|done].
  simplify_option_eq. unfold rows. simpl.
  rewrite !length_insert. repeat split; try done.
  pose proof (insert_zip_with pair (maskMatrix (buf st))
                (kernelWeights (buf st)) (nsamplesAdded (buf st)) m w) as Hins.
  rewrite <- Hins. clear Hins.
  set (z := zip_with pair (maskMatrix (buf st)) (kernelWeights (buf st))).
  assert (Hz : nsamplesAdded (buf st) < length z).
  { unfold z. rewrite length_zip_with. lia. }
  erewrite take_S_r; [|by apply list_lookup_insert_eq].
  by rewrite take_insert_ge.
Qed.

(** [addsample] is append-only: on success the populated rows are the
    earlier ones, unchanged, followed by the new coalition and its weight,
    and nothing but the buffers changes. *)
Theorem addsample_appends st x m w st' :
  buffers_aligned st ->
  addsample st x m w = Some st' ->
  rows st' = rows st ++ [(m, w)] /\
  nsamplesAdded (buf st') = S (nsamplesAdded (buf st)) /\
  cfg st' = cfg st /\ inst st' = inst st /\
  y (buf st') = y (buf st) /\ ey (buf st') = ey (buf st) /\
  nsamplesRun (buf st') = nsamplesRun (buf st).
Proof.
  intros Hal Hrun.
  destruct (addsample_rows _ _ _ _ _ Hal Hrun) as (Hr & _ & Hc & Hi & _ & Hn & _).
  repeat split; try done; unfold addsample in Hrun;
    destruct (foldlM _ (synth_data (buf st)) _); simpl in Hrun; try done;
    by simplify_option_eq.
Qed.

(** [addsample_appends] on the freshly allocated buffers of the scenario. *)
Lemma addsample_appends_witness :
  let st := Reference.allocated Reference.sum3 Reference.x123
              Reference.no_kwargs in
  exists st',
    addsample st Reference.x123 [true; false; false] (1 # 6) = Some st' /\
    nsamplesAdded (buf st') = 1 /\
    rows st' = rows st ++ [([true; false; false], (1 # 6)%Q)].
Proof.
  intros st.
  assert (Hn : (fun s => nsamplesAdded (buf s))
                 <$> addsample st Reference.x123 [true; false; false] (1 # 6)
               = Some 1) by (vm_compute; reflexivity).
  apply fmap_Some in Hn as (st' & Hrun & Hn).
  assert (Hal : buffers_aligned st) by (vm_compute; reflexivity).
  destruct (addsample_appends _ _ _ _ _ Hal Hrun) as (Hr & _).
  exists st'. split; [exact Hrun|]. split; [by symmetry|exact Hr].
Defined.

(** ** The subset sizes and their weights *)

(** Coalition sizes [1 .. floor(M/2)] are sampled directly; all of them are
    paired with their complements except the middle size of an even [M]. *)
Theorem subset_sizes_spec m :
  num_subset_sizes m = m / 2 /\
  num_paired_subset_sizes m = (m - 1) / 2 /\
  num_paired_subset_sizes m <= num_subset_sizes m <= S (num_paired_subset_sizes m) /\
  (1 <= m -> num_subset_sizes m < m) /\
  (1 <= m ->
     (num_subset_sizes m = num_paired_subset_sizes m <-> m mod 2 = 1)).
Proof.
  rewrite num_subset_sizes_eq, num_paired_subset_sizes_eq.
  pose proof (Nat.div_mod_eq m 2) as H1.
  pose proof (Nat.div_mod_eq (m - 1) 2) as H2.
  pose proof (Nat.mod_upper_bound m 2) as H3.
  pose proof (Nat.mod_upper_bound (m - 1) 2) as H4.
  repeat split; try lia.
Qed.

Lemma nq_pos i : 1 <= i -> (0 < nq i)%Q.
Proof. intros Hi. unfold nq, Qlt. simpl. lia. Qed.

Lemma nq_sub_pos m i : i < m -> (0 < nq m - nq i)%Q.
Proof. intros Hi. unfold nq, Qlt, Qminus, Qplus, Qopp. simpl. lia. Qed.

Lemma nq_sub1_pos m : 2 <= m -> (0 < nq m - 1)%Q.
Proof. intros Hi. unfold nq, Qlt, Qminus, Qplus, Qopp. simpl. lia. Qed.

Lemma qsum_app a b : (qsum (a ++ b) == qsum a + qsum b)%Q.
Proof.
  induction a as [|x a IH]; simpl; [ring|]. rewrite IH. ring.
Qed.

Lemma qsum_vdiv l c : (qsum (vdiv l c) == qsum l / c)%Q.
Proof.
  induction l as [|x l IH]; simpl.
  - unfold Qdiv. ring.
  - rewrite IH. unfold Qdiv. ring.
Qed.

Lemma qsum_pos l : Forall (fun w => (0 < w)%Q) l -> l <> [] -> (0 < qsum l)%Q.
Proof.
  intros Hall Hne. destruct l as [|x l]; [done|]. clear Hne.
  apply Forall_cons in Hall as [Hx Hall]. simpl.
  assert (Hl : (0 <= qsum l)%Q).
  { clear Hx. induction Hall as [|y l Hy _ IH]; simpl; [apply Qle_refl|].
    apply Qlt_le_weak in Hy. lra. }
  lra.
Qed.

Lemma Qdiv_pos a c : (0 < a)%Q -> (0 < c)%Q -> (0 < a / c)%Q.
Proof.
  intros Ha Hc. apply Qlt_shift_div_l; [exact Hc|]. lra.
Qed.

Lemma nq_le i j : i <= j -> (nq i <= nq j)%Q.
Proof. intros Hij. unfold nq. rewrite <- Zle_Qle. lia. Qed.

(** The Shapley kernel weight of the subset size [k]. *)
Lemma kernel_antitone m i j :
  1 <= i -> i <= j -> 2 * j <= m -> j < m ->
  ((nq m - 1) / (nq j * (nq m - nq j))
   <= (nq m - 1) / (nq i * (nq m - nq i)))%Q.
Proof.
  intros Hi Hij Hjm Hlt.
  pose proof (nq_pos i ltac:(lia)) as Hpi.
  pose proof (nq_pos j ltac:(lia)) as Hpj.
  pose proof (nq_sub_pos m i ltac:(lia)) as Hmi.
  pose proof (nq_sub_pos m j ltac:(lia)) as Hmj.
  pose proof (nq_le i j Hij) as Hle.
  assert (H2 : (nq j + nq j <= nq m)%Q).
  { unfold nq. rewrite <- inject_Z_plus, <- Zle_Qle. lia. }
  assert (Hm1 : (0 <= nq m - 1)%Q).
  { pose proof (nq_sub1_pos m ltac:(lia)). lra. }
  set (Di := (nq i * (nq m - nq i))%Q).
  set (Dj := (nq j * (nq m - nq j))%Q).
  assert (HDi : (0 < Di)%Q) by (by apply Qmult_lt_0_compat).
  assert (HDj : (0 < Dj)%Q) by (by apply Qmult_lt_0_compat).
  assert (HD : (Di <= Dj)%Q).
  { assert (Hp : (0 <= (nq j - nq i) * (nq m - nq i - nq j))%Q)
      by (apply Qmult_le_0_compat; lra).
    unfold Di, Dj. lra. }
  apply Qle_shift_div_r; [exact HDj|].
  assert (Hb : (0 <= (nq m - 1) / Di)%Q).
  { apply Qle_shift_div_l; [exact HDi|]. lra. }
  assert (Heq : ((nq m - 1) / Di * Di == nq m - 1)%Q) by (field; lra).
  assert (Hmono : ((nq m - 1) / Di * Di <= (nq m - 1) / Di * Dj)%Q).
  { rewrite !(Qmult_comm ((nq m - 1) / Di)).
    by apply Qmult_le_compat_r. }
  lra.
Qed.

Lemma weight_vector_raw m :
  2 <= m ->
  exists wv1 : vec,
    weight_vector m = vdiv wv1 (qsum wv1) /\
    length wv1 = num_subset_sizes m /\
    Forall (fun w => (0 < w)%Q) wv1 /\
    (0 < qsum wv1)%Q /\
    (forall j, j < num_subset_sizes m ->
       wv1 !! j
       = Some (if decide (j < num_paired_subset_sizes m)%nat
               then (nq m - 1) / (nq (S j) * (nq m - nq (S j))) * 2
               else (nq m - 1) / (nq (S j) * (nq m - nq (S j))))%Q).
Proof.
  intros Hm. unfold weight_vector.
  pose proof (num_subset_sizes_eq m) as HS.
  pose proof (num_paired_subset_sizes_eq m) as HP.
  assert (Hle : num_paired_subset_sizes m <= num_subset_sizes m).
  { rewrite HS, HP. apply Nat.Div0.div_le_mono. lia. }
  assert (Hlt : num_subset_sizes m < m).
  { rewrite HS. apply Nat.div_lt; lia. }
  set (f := fun i => ((nq m - 1) / (nq i * (nq m - nq i)))%Q).
  set (wv0 := map f (seq 1 (num_subset_sizes m))).
  set (p := num_paired_subset_sizes m) in *.
  set (wv1 := map _ (take p wv0) ++ drop p wv0).
  assert (Hlen0 : length wv0 = num_subset_sizes m).
  { unfold wv0. by rewrite length_map, length_seq. }
  assert (Hpos0 : Forall (fun w => (0 < w)%Q) wv0).
  { unfold wv0. apply Forall_fmap, Forall_forall. intros i Hi. simpl.
    apply elem_of_seq in Hi.
    apply Qdiv_pos; [by apply nq_sub1_pos|].
    apply Qmult_lt_0_compat; [apply nq_pos; lia|apply nq_sub_pos; lia]. }
  assert (Hlen1 : length wv1 = num_subset_sizes m).
  { unfold wv1. rewrite length_app, length_map, length_take, length_drop. lia. }
  assert (Hpos1 : Forall (fun w => (0 < w)%Q) wv1).
  { unfold wv1. apply Forall_app. split.
    - apply Forall_fmap. eapply Forall_impl; [by apply Forall_take|].
      simpl. intros x Hx. lra.
    - by apply Forall_drop. }
  exists wv1. split; [done|]. split; [done|]. split; [done|]. split.
  - apply qsum_pos; [done|]. intros Heq. rewrite Heq in Hlen1.
    simpl in Hlen1. rewrite HS in Hlen1.
    pose proof (Nat.div_mod_eq m 2). pose proof (Nat.mod_upper_bound m 2). lia.
  - intros j Hj.
    assert (H0 : wv0 !! j = Some (f (S j))).
    { unfold wv0. rewrite list_lookup_fmap, lookup_seq_lt by done. done. }
    assert (Hlp : forall g : Q -> Q, length (map g (take p wv0)) = p)
      by (intros g; rewrite length_map, length_take; lia).
    unfold wv1. case_decide as Hjp.
    + rewrite lookup_app_l by (rewrite Hlp; lia).
      by rewrite list_lookup_fmap, lookup_take_lt, H0 by done.
    + rewrite lookup_app_r by (rewrite Hlp; lia).
      rewrite Hlp, lookup_drop.
      replace (p + (j - p)) with j by lia. exact H0.
Qed.

(** The Shapley-kernel weights of the subset sizes: one weight per size,
    each of them positive, and a larger subset size never has a larger
    weight than a smaller one. *)
Theorem weight_vector_spec m :
  2 <= m ->
  length (weight_vector m) = num_subset_sizes m /\
  Forall (fun w => (0 < w)%Q) (weight_vector m) /\
  (forall i j a b, i <= j ->
     weight_vector m !! i = Some a -> weight_vector m !! j = Some b ->
     (b <= a)%Q).
Proof.
  intros Hm.
  destruct (weight_vector_raw m Hm)
    as (wv1 & -> & Hlen1 & Hpos1 & Hs & Hraw).
  unfold vdiv. split; [by rewrite length_map|]. split.
  - apply Forall_fmap. eapply Forall_impl; [exact Hpos1|].
    simpl. intros x Hx. by apply Qdiv_pos.
  - intros i j a b Hij Ha Hb.
    rewrite list_lookup_fmap in Ha, Hb.
    destruct (wv1 !! i) as [a1|] eqn:Ha1; [|done].
    destruct (wv1 !! j) as [b1|] eqn:Hb1; [|done].
    simpl in Ha, Hb. injection Ha as <-. injection Hb as <-.
    assert (Hj : j < num_subset_sizes m)
      by (rewrite <- Hlen1; by eapply lookup_lt_Some).
    rewrite Hraw in Ha1, Hb1 by lia.
    injection Ha1 as <-. injection Hb1 as <-.
    assert (Hhalf : 2 * S j <= m /\ S j < m).
    { rewrite num_subset_sizes_eq in Hj.
      pose proof (Nat.div_mod_eq m 2). pose proof (Nat.mod_upper_bound m 2).
      lia. }
    destruct Hhalf as [H2j Hjm].
    pose proof (kernel_antitone m (S i) (S j) ltac:(lia) ltac:(lia) H2j Hjm)
      as Hanti.
    assert (Hfi : (0 < (nq m - 1) / (nq (S i) * (nq m - nq (S i))))%Q).
    { apply Qdiv_pos; [by apply nq_sub1_pos|].
      apply Qmult_lt_0_compat; [apply nq_pos; lia|apply nq_sub_pos; lia]. }
    apply Qmult_le_compat_r; [|apply Qinv_le_0_compat; lra].
    repeat case_decide; try lia; lra.
Qed.

(** [weight_vector_spec] for four varying groups: weights [8/11] and [3/11]. *)
Lemma weight_vector_spec_witness :
  length (weight_vector 4) = 2 /\
  forall a b, weight_vector 4 !! 0 = Some a -> weight_vector 4 !! 1 = Some b ->
    (b <= a)%Q.
Proof.
  destruct (weight_vector_spec 4) as (Hlen & _ & Hmono); [lia|].
  split; [exact Hlen|]. intros a b Ha Hb. apply (Hmono 0 1 a b); [lia|done..].
Defined.

(** ** The clean-up loop of [solve] *)

Lemma clean_entry p :
  let c := if Qlt_bool (Qabs p) tiny then 0%Q else p in
  (Qabs (c - p) <= tiny)%Q /\ (c = 0%Q \/ (tiny <= Qabs c)%Q).
Proof.
  cbv zeta. destruct (Qlt_bool (Qabs p) tiny) eqn:Hlt.
  - apply Qlt_bool_iff in Hlt. split; [|by left].
    apply (proj1 (Qabs_Qlt_condition _ _)) in Hlt. apply (proj2 (Qabs_Qle_condition _ _)).
    unfold tiny in *. lra.
  - split.
    + apply (proj2 (Qabs_Qle_condition _ _)). unfold tiny. lra.
    + right. apply Qnot_lt_le. intros Hlt'.
      apply Qlt_bool_iff in Hlt'. congruence.
Qed.

(** The clean-up loop zeroes exactly the coefficients of magnitude below
    [1e-10] and keeps every other coefficient in its place: afterwards no
    coefficient lies strictly between 0 and [1e-10] in magnitude, and
    cleaning twice changes nothing more. *)
Theorem clean_spec phi :
  length (clean phi) = length phi /\
  (forall i p, phi !! i = Some p ->
     ((Qabs p < tiny)%Q -> clean phi !! i = Some 0%Q) /\
     ((tiny <= Qabs p)%Q -> clean phi !! i = Some p)) /\
  clean (clean phi) = clean phi /\
  Forall (fun q => q = 0%Q \/ (tiny <= Qabs q)%Q) (clean phi).
Proof.
  unfold clean. split; [apply length_map|]. split; [|split].
  - intros i p Hp. rewrite list_lookup_fmap, Hp. simpl. split.
    + intros Hlt. apply Qlt_bool_iff in Hlt. by rewrite Hlt.
    + intros Hge. destruct (Qlt_bool (Qabs p) tiny) eqn:Hlt; [|done].
      apply Qlt_bool_iff in Hlt. exfalso. by apply (Qlt_not_le _ _ Hlt).
  - rewrite <- list_fmap_compose. apply list_fmap_ext. intros _ p _. simpl.
    destruct (Qlt_bool (Qabs p) tiny) eqn:Hlt; [reflexivity|by rewrite Hlt].
  - apply Forall_fmap, Forall_forall. intros p _. simpl.
    apply (clean_entry p).
Qed.

(** ** The constrained solve *)

Lemma assign_in_range phi0 inds vals phi :
  assign phi0 inds vals = Some phi -> forall i, i ∈ inds -> i < length phi0.
Proof.
  unfold assign. intros Hrun.
  apply bind_Some in Hrun as (Hlen & _ & Hrun).
  revert vals phi0 Hlen Hrun.
  induction inds as [|a l IH]; intros vals phi0 Hlen Hrun i Hi;
    [by apply elem_of_nil in Hi|].
  destruct vals as [|v vals]; [done|]. simpl in Hlen, Hrun.
  apply bind_Some in Hrun as (phi1 & Hstep & Hrun).
  apply bind_Some in Hstep as (Ha & _ & Hstep). injection Hstep as <-.
  apply elem_of_cons in Hi as [->|Hi]; [done|].
  specialize (IH vals _ ltac:(lia) Hrun i Hi). by rewrite length_insert in IH.
Qed.

Lemma assign_lookup phi0 inds vals phi :
  assign phi0 inds vals = Some phi ->
  NoDup inds ->
  (forall k j, inds !! k = Some j -> phi !! j = vals !! k) /\
  (forall j, j ∉ inds -> phi !! j = phi0 !! j).
Proof.
  unfold assign. intros Hrun Hnd. case_guard as Hlen; simpl in Hrun; [|done].
  revert vals phi0 Hlen Hrun.
  induction Hnd as [|i inds Hni Hnd IH]; intros vals phi0 Hlen Hrun.
  - destruct vals; [|done]. simpl in Hrun. injection Hrun as <-.
    split; [by intros k j Hk|done].
  - destruct vals as [|v vals]; [done|]. simpl in Hlen, Hrun.
    case_guard as Hi; simpl in Hrun; [|done].
    destruct (IH vals (<[i := v]> phi0)) as [Hget Hkeep]; [lia|exact Hrun|].
    split.
    + intros [|k] j Hk; simpl in Hk.
      * injection Hk as <-. rewrite Hkeep by done. simpl.
        by apply list_lookup_insert_eq.
      * simpl. by apply Hget.
    + intros j Hj. rewrite Hkeep by (intros ?; apply Hj; by right).
      apply list_lookup_insert_ne. intros ->. apply Hj. by left.
Qed.


Section Constrained.
Context `{Externals}.


Lemma support_NoDup st frac eyAdj dim inds :
  support st frac eyAdj dim = Some inds -> NoDup inds.
Proof.
  unfold support. destruct (selection_runs _ _).
  - destruct (augmented_system st eyAdj dim) as [[A b]|]; simpl; [|done].
    unfold choose_support.
    destruct (l1_reg (inst st)) as [s| |].
    + destruct (String.prefix _ s).
      * destruct (py_int _) as [r|]; simpl; [|done]. apply lars_path_spec.
      * destruct (_ || _).
        -- destruct (LassoLarsIC _ A b); simpl; [|done].
           intros [= <-]. apply nonzero_NoDup.
        -- destruct (Lasso _ A b); simpl; [|done].
           intros [= <-]. apply nonzero_NoDup.
    + destruct (Lasso _ A b); simpl; [|done]. intros [= <-]. apply nonzero_NoDup.
    + destruct (Lasso _ A b); simpl; [|done]. intros [= <-]. apply nonzero_NoDup.
  - intros [= <-]. apply NoDup_seq.
Qed.

End Constrained.


(** ** [allocate] *)

Lemma length_tile {A} (l : list A) n :
  length (mjoin (replicate n l)) = n * length l.
Proof.
  induction n as [|n IH]; [done|].
  change (mjoin (replicate (S n) l)) with (l ++ mjoin (replicate n l)).
  rewrite length_app, IH. lia.
Qed.

Lemma lookup_tile {A} (l : list A) n i j :
  i < n -> j < length l ->
  mjoin (replicate n l) !! (i * length l + j) = l !! j.
Proof.
  revert i. induction n as [|n IH]; intros i Hi Hj; [lia|].
  change (mjoin (replicate (S n) l)) with (l ++ mjoin (replicate n l)).
  destruct i as [|i].
  - simpl. by apply lookup_app_l.
  - rewrite lookup_app_r by lia.
    replace (S i * length l + j - length l) with (i * length l + j) by lia.
    apply IH; lia.
Qed.

(** [allocate] raises exactly on a negative [nsamples]. Otherwise it resets
    both counters, leaves no populated row, gives the mask matrix [nsamples]
    all-zero rows of [M] entries with a zero weight each, and tiles the
    background data [nsamples] times: row [j] of block [i] of the synthetic
    data is background row [j]. *)
Theorem allocate_spec st :
  let n := Z.to_nat (nsamples (inst st)) in
  ((nsamples (inst st) < 0)%Z -> allocate st = None) /\
  ((0 <= nsamples (inst st))%Z ->
     exists st', allocate st = Some st' /\
       cfg st' = cfg st /\ inst st' = inst st /\
       nsamplesAdded (buf st') = 0 /\ nsamplesRun (buf st') = 0 /\
       rows st' = [] /\ buffers_aligned st' /\
       maskMatrix (buf st') = replicate n (replicate (M (inst st)) false) /\
       kernelWeights (buf st') = replicate n 0%Q /\
       length (synth_data (buf st')) = n * length (data (cfg st)) /\
       forall i j, i < n -> j < length (data (cfg st)) ->
         synth_data (buf st') !! (i * length (data (cfg st)) + j)
         = data (cfg st) !! j).
Proof.
  intros n. unfold allocate. split.
  - intros Hneg. rewrite option_guard_False by lia. done.
  - intros Hpos. rewrite option_guard_True by done. simpl.
    eexists. split; [reflexivity|]. simpl. fold n.
    repeat split; try done.
    + unfold buffers_aligned. simpl. by rewrite !length_replicate.
    + apply length_tile.
    + intros i j Hi Hj. by apply lookup_tile.
Qed.

(** ** [varying_groups] *)

Lemma elem_of_omap_imap {A} (f : nat * A -> option nat) (l : list A) j :
  (forall i a k, f (i, a) = Some k -> k = i) ->
  j ∈ omap f (imap pair l) <-> exists a, l !! j = Some a /\ f (j, a) = Some j.
Proof.
  intros Hf. rewrite list_elem_of_omap. split.
  - intros ([i a] & Hin & Hfx).
    apply list_elem_of_lookup in Hin as [i' Hi'].
    rewrite list_lookup_imap in Hi'.
    destruct (l !! i') as [a'|] eqn:Ha; simpl in Hi'; [|done].
    injection Hi' as <- <-.
    pose proof (Hf _ _ _ Hfx) as ->. eauto.
  - intros (a & Ha & Hfx). exists (j, a). split; [|done].
    apply list_elem_of_lookup. exists j.
    rewrite list_lookup_imap, Ha. done.
Qed.

Lemma varying_groups_flags c x vi :
  varying_groups c x = Some vi ->
  exists varying,
    Forall2 (fun i b => (inds ← groups c !! i;
                         n ← num_mismatches x (data c) inds;
                         Some (bool_decide (0 < n))) = Some b)
            (seq 0 (groups_size c)) varying /\
    forall i, i ∈ vi <-> varying !! i = Some true.
Proof.
  unfold varying_groups. intros Hrun.
  apply bind_Some in Hrun as (varying & Hm & Hrun). injection Hrun as <-.
  apply mapM_Some in Hm. exists varying. split; [exact Hm|].
  intros i.
  rewrite (elem_of_omap_imap
             (fun '(i, b) => if (b : bool) then Some i else None));
    [|by intros ? [] ?; [intros [= ->]|]].
  split.
  - intros (b & Hb & Hi). by destruct b.
  - intros Hb. by exists true.
Qed.

Lemma varying_groups_sound c x vi i :
  varying_groups c x = Some vi ->
  i ∈ vi ->
  i < groups_size c /\
  exists inds n, groups c !! i = Some inds /\
    num_mismatches x (data c) inds = Some n /\ 0 < n.
Proof.
  intros Hrun Hi.
  destruct (varying_groups_flags _ _ _ Hrun) as (varying & Hm & Hvi).
  apply Hvi in Hi.
  destruct (Forall2_lookup_r _ _ _ _ _ Hm Hi) as (i' & Hseq & Hg).
  apply lookup_seq in Hseq as [-> Hlt]. simpl in *.
  split; [done|].
  apply bind_Some in Hg as (inds & Hinds & Hg).
  apply bind_Some in Hg as (n & Hn & Hg). injection Hg as Hg.
  apply bool_decide_eq_true in Hg. eauto.
Qed.

Lemma varying_groups_complete c x vi i inds n :
  varying_groups c x = Some vi ->
  i < groups_size c ->
  groups c !! i = Some inds ->
  num_mismatches x (data c) inds = Some n ->
  0 < n ->
  i ∈ vi.
Proof.
  intros Hrun Hlt Hinds Hn Hpos.
  destruct (varying_groups_flags _ _ _ Hrun) as (varying & Hm & Hvi).
  apply Hvi.
  assert (Hseq : seq 0 (groups_size c) !! i = Some i)
    by (by apply lookup_seq).
  destruct (Forall2_lookup_l _ _ _ _ _ Hm Hseq) as (b & Hb & Hg).
  rewrite Hinds in Hg. simpl in Hg. rewrite Hn in Hg. simpl in Hg.
  injection Hg as <-. by rewrite bool_decide_eq_true_2 in Hb.
Qed.

Lemma sum_list_pos (l : list nat) :
  0 < sum_list l <-> exists v, v ∈ l /\ 0 < v.
Proof.
  induction l as [|a l IH]; simpl.
  - split; [lia|]. intros (v & Hv & _). by apply elem_of_nil in Hv.
  - split.
    + intros Hpos. destruct (decide (0 < a)) as [Ha|Ha].
      * exists a. split; [by left|done].
      * destruct (proj1 IH ltac:(lia)) as (v & Hv & Hpos').
        exists v. split; [by right|done].
    + intros (v & Hv & Hpos). apply elem_of_cons in Hv as [->|Hv]; [lia|].
      assert (0 < sum_list l) by (apply IH; eauto). lia.
Qed.

Lemma filter_false_pos (l : list bool) :
  0 < length (filter (fun b => b = false) l) <-> exists p, l !! p = Some false.
Proof.
  split.
  - intros Hpos.
    destruct (filter (fun b => b = false) l) as [|b t] eqn:Hf;
      [simpl in Hpos; lia|].
    assert (Hb : b ∈ filter (fun b => b = false) l) by (rewrite Hf; by left).
    apply list_elem_of_filter in Hb as [-> Hb].
    by apply list_elem_of_lookup in Hb.
  - intros (p & Hp).
    assert (Hb : false ∈ filter (fun b => b = false) l).
    { apply list_elem_of_filter. split; [done|].
      by eapply list_elem_of_lookup_2. }
    destruct (filter (fun b => b = false) l); [by apply elem_of_nil in Hb|].
    simpl. lia.
Qed.

Lemma num_mismatches_pos x bg inds n :
  num_mismatches x bg inds = Some n ->
  (0 < n <->
   exists row k a b, row ∈ bg /\ k ∈ inds /\
     x !! k = Some a /\ row !! k = Some b /\ isclose a b = false).
Proof.
  unfold num_mismatches. intros Hrun.
  apply bind_Some in Hrun as (x_group & Hx & Hrun).
  apply bind_Some in Hrun as (rws & Hrows & Hrun). injection Hrun as <-.
  apply mapM_Some in Hx. apply mapM_Some in Hrows.
  rewrite sum_list_pos. split.
  - intros (v & Hv & Hpos).
    apply list_elem_of_fmap in Hv as (rg & -> & Hrg).
    apply filter_false_pos in Hpos as (p & Hp).
    apply lookup_zip_with_Some in Hp as (a & b & Hab & Ha & Hb).
    apply list_elem_of_lookup in Hrg as [r Hr].
    destruct (Forall2_lookup_r _ _ _ _ _ Hrows Hr) as (row & Hrow & Hg).
    apply mapM_Some in Hg.
    destruct (Forall2_lookup_r _ _ _ _ _ Hx Ha) as (k & Hk & Hxa).
    destruct (Forall2_lookup_l _ _ _ _ _ Hg Hk) as (b' & Hb' & Hrb).
    assert (b' = b) as -> by congruence.
    exists row, k, a, b.
    split; [by eapply list_elem_of_lookup_2|].
    split; [by eapply list_elem_of_lookup_2|]. done.
  - intros (row & k & a & b & Hrow & Hk & Hxa & Hrb & Hab).
    apply list_elem_of_lookup in Hrow as [r Hr].
    apply list_elem_of_lookup in Hk as [p Hp].
    destruct (Forall2_lookup_l _ _ _ _ _ Hrows Hr) as (rg & Hrg & Hg).
    apply mapM_Some in Hg.
    destruct (Forall2_lookup_l _ _ _ _ _ Hx Hp) as (a' & Ha' & Hxa').
    destruct (Forall2_lookup_l _ _ _ _ _ Hg Hp) as (b' & Hb' & Hrb').
    assert (a' = a) as -> by congruence.
    assert (b' = b) as -> by congruence.
    exists (length (filter (fun b => b = false) (zip_with isclose x_group rg))).
    split.
    + apply list_elem_of_fmap. exists rg. split; [done|].
      by eapply list_elem_of_lookup_2.
    + apply filter_false_pos. exists p.
      apply lookup_zip_with_Some. by exists a, b.
Qed.

(** [varying_groups] reports exactly the groups for which [np.isclose]
    fails on some entry: some column [k] of the group and some background
    row whose value in that column is not close to the instance's. *)
Theorem varying_groups_characterised c x vi :
  varying_groups c x = Some vi ->
  forall i, i ∈ vi <->
    i < groups_size c /\
    exists inds row k a b,
      groups c !! i = Some inds /\ row ∈ data c /\ k ∈ inds /\
      x !! k = Some a /\ row !! k = Some b /\ isclose a b = false.
Proof.
  intros Hrun i. split.
  - intros Hi.
    destruct (varying_groups_sound _ _ _ _ Hrun Hi)
      as (Hlt & inds & n & Hinds & Hn & Hpos).
    split; [done|].
    apply (num_mismatches_pos _ _ _ _ Hn) in Hpos
      as (row & k & a & b & Hrest).
    by exists inds, row, k, a, b.
  - intros (Hlt & inds & row & k & a & b & Hinds & Hrest).
    destruct (varying_groups_flags _ _ _ Hrun) as (varying & Hm & _).
    assert (Hseq : seq 0 (groups_size c) !! i = Some i)
      by (by apply lookup_seq).
    destruct (Forall2_lookup_l _ _ _ _ _ Hm Hseq) as (fl & _ & Hg).
    rewrite Hinds in Hg. simpl in Hg.
    apply bind_Some in Hg as (n & Hn & _).
    apply (varying_groups_complete c x vi i inds n); try done.
    apply (num_mismatches_pos _ _ _ _ Hn). by exists row, k, a, b.
Qed.

Lemma isclose_refl a : isclose a a = true.
Proof.
  unfold isclose. apply Qle_bool_iff.
  assert (Ha : (0 <= Qabs a)%Q) by apply Qabs_nonneg.
  apply (proj2 (Qabs_Qle_condition _ _)). unfold atol, rtol. lra.
Qed.

Lemma num_mismatches_agree x bg inds n :
  num_mismatches x bg inds = Some n ->
  (forall row k, row ∈ bg -> k ∈ inds -> row !! k = x !! k) ->
  n = 0.
Proof.
  unfold num_mismatches. intros Hrun Hagree.
  apply bind_Some in Hrun as (x_group & Hx & Hrun).
  apply bind_Some in Hrun as (rws & Hrows & Hrun). injection Hrun as <-.
  apply mapM_Some in Hrows.
  assert (Hall : Forall (fun rg => rg = x_group) rws).
  { apply Forall_forall. intros rg Hrg.
    apply list_elem_of_lookup in Hrg as [j Hj].
    destruct (Forall2_lookup_r _ _ _ _ _ Hrows Hj) as (row & Hrow & Hg).
    assert (Heq : mapM (fun k => row !! k) inds = mapM (fun k => x !! k) inds).
    { apply Forall_mapM_ext, Forall_forall. intros k Hk.
      apply Hagree; [|done]. apply list_elem_of_lookup. eauto. }
    congruence. }
  clear Hrows. induction Hall as [|rg rws -> _ IH]; [done|].
  cbn [map sum_list sum_list_with]. rewrite IH. 
  assert (Hz : filter (fun b => b = false) (zip_with isclose x_group x_group) = []).
  { clear. induction x_group as [|a l IHl]; [done|]. simpl.
    rewrite filter_cons, isclose_refl. rewrite decide_False by done. exact IHl. }
  rewrite Hz. done.
Qed.

(** A group on whose columns every background row carries the instance's
    own values is not reported as varying. *)
Theorem unchanged_group_not_varying c x vi i inds :
  varying_groups c x = Some vi ->
  groups c !! i = Some inds ->
  (forall row k, row ∈ data c -> k ∈ inds -> row !! k = x !! k) ->
  i ∉ vi.
Proof.
  intros Hrun Hinds Hagree Hin.
  apply (varying_groups_sound _ _ _ _ Hrun) in Hin
    as (_ & inds' & n & Hinds' & Hn & Hpos).
  rewrite Hinds in Hinds'. injection Hinds' as <-.
  apply num_mismatches_agree in Hn; [lia|done].
Qed.

(** [varying_groups_characterised] at the scenario of the specification
    for the instance [[0, 5, 0]]: the second group is reported, with an
    entry that is not close to the background. *)
Lemma varying_groups_characterised_witness :
  1 < groups_size (cfg Reference.sum3) /\
  exists inds row k a b,
    groups (cfg Reference.sum3) !! 1 = Some inds /\
    row ∈ data (cfg Reference.sum3) /\ k ∈ inds /\
    Reference.x050 !! k = Some a /\ row !! k = Some b /\
    isclose a b = false.
Proof.
  assert (Hrun : varying_groups (cfg Reference.sum3) Reference.x050 = Some [1])
    by (vm_compute; reflexivity).
  apply (proj1 (varying_groups_characterised _ _ _ Hrun 1)).
  by left.
Defined.

(** [unchanged_group_not_varying] at the same instance: the first group
    keeps the background value and is not reported. *)
Lemma unchanged_group_not_varying_witness :
  0 ∉ default [] (varying_groups (cfg Reference.sum3) Reference.x050).
Proof.
  assert (Hrun : varying_groups (cfg Reference.sum3) Reference.x050
                 = Some (default [] (varying_groups (cfg Reference.sum3)
                                       Reference.x050)))
    by (vm_compute; reflexivity).
  apply (unchanged_group_not_varying _ _ _ 0 [0] Hrun); [reflexivity|].
  intros row k Hrow Hk.
  apply list_elem_of_singleton in Hk as ->.
  apply list_elem_of_singleton in Hrow as ->. reflexivity.
Defined.

(** ** The exact enumeration of one subset size *)

Lemma add_subsets_rows x paired w combs st st' :
  buffers_aligned st ->
  add_subsets x paired w combs st = Some st' ->
  rows st' = rows st ++
    concat (map (fun inds =>
                   let msk := mask_of (M (inst st)) inds in
                   if paired then [(msk, w); (complement msk, w)]
                   else [(msk, w)]) combs) /\
  buffers_aligned st' /\ cfg st' = cfg st /\ inst st' = inst st.
Proof.
  unfold add_subsets. revert st.
  induction combs as [|inds combs IH]; intros st Hal Hrun; simpl in Hrun.
  - injection Hrun as <-. simpl. by rewrite app_nil_r.
  - apply bind_Some in Hrun as (st2 & Hstep & Hrun).
    apply bind_Some in Hstep as (st1 & H1 & Hstep).
    destruct (addsample_rows _ _ _ _ _ Hal H1)
      as (Hr1 & _ & Hc1 & Hi1 & Hal1 & _).
    destruct paired.
    + destruct (addsample_rows _ _ _ _ _ Hal1 Hstep)
        as (Hr2 & _ & Hc2 & Hi2 & Hal2 & _).
      destruct (IH _ Hal2 Hrun) as (Hr & Hal' & Hc & Hi).
      rewrite Hi2, Hi1 in Hr.
      split; [|split; [done|split; congruence]].
      rewrite Hr, Hr2, Hr1. cbn [map concat]. by rewrite <- !app_assoc.
    + injection Hstep as <-.
      destruct (IH _ Hal1 Hrun) as (Hr & Hal' & Hc & Hi).
      rewrite Hi1 in Hr.
      split; [|split; [done|split; congruence]].
      rewrite Hr, Hr1. cbn [map concat]. by rewrite <- !app_assoc.
Qed.

Lemma length_subset_rows m k paired w :
  length (subset_rows m k paired w)
  = binom m k * (if paired then 2 else 1).
Proof.
  unfold subset_rows.
  pose proof (combinations_length (seq 0 m) k) as Hl.
  rewrite length_seq in Hl. rewrite <- Hl. clear Hl.
  induction (combinations (seq 0 m) k) as [|c l IH]; [done|].
  cbn [map concat length]. rewrite length_app, IH.
  destruct paired; simpl; lia.
Qed.

(** Enumerating one subset size appends to the populated rows, in the
    order of [itertools.combinations], the mask of every combination of
    [subset_size] groups (each followed by its complement when the size is
    paired), all with the same weight: [binom(M, subset_size)] rows, twice
    as many when paired, which is the [nsubsets] charged to the budget. *)
Theorem add_subsets_spec x k paired w st st' :
  buffers_aligned st ->
  add_subsets x paired w (combinations (seq 0 (M (inst st))) k) st = Some st' ->
  rows st' = rows st ++ subset_rows (M (inst st)) k paired w /\
  length (rows st') = length (rows st)
                      + binom (M (inst st)) k * (if paired then 2 else 1) /\
  Forall (fun r => r.2 = w) (subset_rows (M (inst st)) k paired w) /\
  cfg st' = cfg st /\ inst st' = inst st.
Proof.
  intros Hal Hrun.
  destruct (add_subsets_rows _ _ _ _ _ _ Hal Hrun) as (Hr0 & _ & Hc & Hi).
  assert (Hr : rows st' = rows st ++ subset_rows (M (inst st)) k paired w)
    by exact Hr0.
  clear Hr0.
  split; [done|]. split; [by rewrite Hr, length_app, length_subset_rows|].
  split; [|done].
  unfold subset_rows. clear.
  induction (combinations (seq 0 (M (inst st))) k) as [|c l IH];
    [constructor|].
  cbn [map concat]. apply Forall_app. split; [|exact IH].
  destruct paired; repeat constructor.
Qed.

(** ** Complement pairing in the exact enumeration *)

Lemma paired_rows_app_pair p rs m w :
  paired_rows p rs -> p < msize (complement m) ->
  paired_rows p (rs ++ [(m, w); (complement m, w)]).
Proof.
  intros Hrs Hc i m' w' Hi Hsz.
  destruct (decide (i < length rs)) as [Hlt|Hge].
  - rewrite lookup_app_l in Hi by done.
    pose proof (Hrs _ _ _ Hi Hsz) as Hnext.
    rewrite lookup_app_l by (by eapply lookup_lt_Some). done.
  - rewrite lookup_app_r in Hi by lia.
    rewrite lookup_app_r by lia.
    replace (S i - length rs) with (S (i - length rs)) by lia.
    destruct (i - length rs) as [|[|j]]; simpl in *.
    + by simplify_eq.
    + simplify_eq. lia.
    + done.
Qed.

Lemma paired_rows_app_single p rs m w :
  paired_rows p rs -> p < msize m -> paired_rows p (rs ++ [(m, w)]).
Proof.
  intros Hrs Hc i m' w' Hi Hsz.
  destruct (decide (i < length rs)) as [Hlt|Hge].
  - rewrite lookup_app_l in Hi by done.
    pose proof (Hrs _ _ _ Hi Hsz) as Hnext.
    rewrite lookup_app_l by (by eapply lookup_lt_Some). done.
  - rewrite lookup_app_r in Hi by lia.
    destruct (i - length rs) as [|j]; simpl in *; [|done].
    simplify_eq. lia.
Qed.

Lemma paired_rows_subset_rows p rs m k w :
  2 * p < m ->
  paired_rows p rs ->
  paired_rows p (rs ++ subset_rows m k (bool_decide (k <= p)) w).
Proof.
  intros Hp Hrs. unfold subset_rows.
  assert (Hall : Forall (fun c => length c = k /\ NoDup c /\
                                  Forall (fun i => i < m) c /\ k <= m)
                        (combinations (seq 0 m) k)).
  { apply Forall_forall. intros c Hc.
    destruct (combinations_seq _ _ _ Hc) as (Hlen & Hnd & Hr).
    repeat split; try done.
    apply combinations_spec in Hc as [_ Hsub].
    apply sublist_length in Hsub. rewrite length_seq in Hsub. lia. }
  revert rs Hrs.
  induction Hall as [|c l (Hlen & Hnd & Hr & Hk) _ IH]; intros rs Hrs.
  - simpl. by rewrite app_nil_r.
  - cbn [map concat]. rewrite app_assoc. apply IH.
    assert (Hsz : msize (mask_of m c) = k) by (by rewrite msize_mask_of).
    case_bool_decide.
    + apply paired_rows_app_pair; [done|].
      rewrite msize_complement, length_mask_of, Hsz. lia.
    + apply paired_rows_app_single; [done|]. lia.
Qed.

Lemma num_paired_lt m : 1 <= m -> 2 * num_paired_subset_sizes m < m.
Proof.
  intros Hm. rewrite num_paired_subset_sizes_eq.
  pose proof (Nat.div_mod_eq (m - 1) 2).
  pose proof (Nat.mod_upper_bound (m - 1) 2). lia.
Qed.

(** C4. In the exact-enumeration loop, started on freshly allocated
    buffers, every populated row whose coalition has at most
    [floor((M-1)/2)] known groups is followed at once by the row of the
    complementary coalition, with the same kernel weight. *)
Theorem enumeration_pairs_complements st x wv sizes nf left rem nf' st' :
  1 <= M (inst st) ->
  buffers_aligned st ->
  nsamplesAdded (buf st) = 0 ->
  enumerate_subsets x wv sizes nf left rem st = Some (nf', st') ->
  paired_rows (num_paired_subset_sizes (M (inst st))) (rows st').
Proof.
  intros HM Hal Hn Hrun.
  set (p := num_paired_subset_sizes (M (inst st))).
  assert (Hinv : buffers_aligned st /\ inst st = inst st /\
                 paired_rows p (rows st)).
  { split; [done|]. split; [done|].
    unfold rows. rewrite Hn. intros i m w Hi. done. }
  cut (buffers_aligned st' /\ inst st' = inst st /\ paired_rows p (rows st'));
    [by intros (_ & _ & Hp)|].
  revert Hinv Hrun. generalize st at 1 2 4 5 as st1. revert nf left rem.
  induction sizes as [|k sizes IH]; intros nf left rem st1 Hinv Hrun;
    simpl in Hrun.
  - by simplify_eq.
  - destruct (rem !! _) as [rw|]; simpl in Hrun; [|done].
    destruct (Qle_bool _ _); [|by simplify_eq].
    destruct (wv !! _) as [wk|]; simpl in Hrun; [|done].
    apply bind_Some in Hrun as (st2 & Hadd & Hrun).
    eapply (IH _ _ _ st2); [|exact Hrun].
    destruct Hinv as (Hal1 & Hi1 & Hp1).
    destruct (add_subsets_rows _ _ _ _ _ _ Hal1 Hadd) as (Hr0 & Hal2 & _ & Hi2).
    assert (Hr : rows st2 = rows st1 ++ subset_rows (M (inst st1)) k
                   (bool_decide (k <= num_paired_subset_sizes (M (inst st1))))
                   (if bool_decide (k <= num_paired_subset_sizes (M (inst st1)))
                    then (wk / nq (binom (M (inst st1)) k) / 2)%Q
                    else (wk / nq (binom (M (inst st1)) k))%Q))
      by exact Hr0.
    clear Hr0.
    split; [done|]. split; [congruence|].
    rewrite Hr, Hi1. fold p. apply paired_rows_subset_rows; [|done].
    by apply num_paired_lt.
Qed.

(** [add_subsets_spec] at the scenario of the specification: the three
    single-group coalitions and their complements, six rows. *)
Lemma add_subsets_spec_witness :
  let st := Reference.allocated Reference.sum3 Reference.x123
              Reference.no_kwargs in
  exists st',
    add_subsets Reference.x123 true (1 # 6)
      (combinations (seq 0 (M (inst st))) 1) st = Some st' /\
    nsamplesAdded (buf st') = 6 /\
    length (rows st') = length (rows st) + binom (M (inst st)) 1 * 2.
Proof.
  intros st.
  assert (Hn : (fun s => nsamplesAdded (buf s))
                 <$> add_subsets Reference.x123 true (1 # 6)
                       (combinations (seq 0 (M (inst st))) 1) st
               = Some 6) by (vm_compute; reflexivity).
  apply fmap_Some in Hn as (st' & Hrun & Hn).
  assert (Hal : buffers_aligned st) by (vm_compute; reflexivity).
  destruct (add_subsets_spec _ _ _ _ _ _ Hal Hrun) as (_ & Hlen & _).
  exists st'. split; [exact Hrun|]. split; [by symmetry|exact Hlen].
Defined.

(** C4 at the scenario of the specification: the enumeration loop as
    [explain] runs it for three varying groups. *)
Lemma enumeration_pairs_complements_witness :
  let st := Reference.allocated Reference.sum3 Reference.x123
              Reference.no_kwargs in
  let wv := weight_vector (M (inst st)) in
  exists nf' st',
    enumerate_subsets Reference.x123 wv
      (seq 1 (num_subset_sizes (M (inst st)))) 0
      (inject_Z (nsamples (inst st))) wv st = Some (nf', st') /\
    nsamplesAdded (buf st') = 6 /\
    paired_rows (num_paired_subset_sizes (M (inst st))) (rows st').
Proof.
  intros st wv.
  assert (Hn : (fun r => nsamplesAdded (buf r.2))
                 <$> enumerate_subsets Reference.x123 wv
                       (seq 1 (num_subset_sizes (M (inst st)))) 0
                       (inject_Z (nsamples (inst st))) wv st
               = Some 6) by (vm_compute; reflexivity).
  apply fmap_Some in Hn as ([nf' st'] & Hrun & Hn).
  assert (HM : 1 <= M (inst st)) by (vm_compute; lia).
  assert (Hal : buffers_aligned st) by (vm_compute; reflexivity).
  assert (H0 : nsamplesAdded (buf st) = 0) by (vm_compute; reflexivity).
  exists nf', st'. split; [exact Hrun|]. split; [by symmetry|].
  exact (enumeration_pairs_complements _ _ _ _ _ _ _ _ _ HM Hal H0 Hrun).
Defined.

(** ** The model evaluation of [run] *)

Lemma vadd_comm a b : Forall2 Qeq (vadd a b) (vadd b a).
Proof.
  revert b. induction a as [|x a IH]; intros [|y b]; simpl; try constructor.
  - ring.
  - apply IH.
Qed.

Lemma vadd_assoc a b c :
  Forall2 Qeq (vadd (vadd a b) c) (vadd a (vadd b c)).
Proof.
  revert b c. induction a as [|x a IH]; intros [|y b] [|z c]; simpl;
    try constructor.
  - ring.
  - apply IH.
Qed.

Lemma vadd_proper a a' b b' :
  Forall2 Qeq a a' -> Forall2 Qeq b b' -> Forall2 Qeq (vadd a b) (vadd a' b').
Proof.
  intros Ha. revert b b'. induction Ha as [|x x' a a' Hx Ha IH];
    intros b b' Hb; destruct Hb as [|y y' b b' Hy Hb]; simpl; try constructor.
  - by rewrite Hx, Hy.
  - by apply IH.
Qed.

Lemma veq_refl (a : vec) : Forall2 Qeq a a.
Proof. induction a; constructor; [reflexivity|done]. Qed.

Lemma veq_trans (a b c : vec) :
  Forall2 Qeq a b -> Forall2 Qeq b c -> Forall2 Qeq a c.
Proof.
  intros Hab. revert c. induction Hab as [|x y a b Hxy Hab IH];
    intros c Hbc; inversion Hbc; subst; constructor.
  - by etransitivity.
  - by apply IH.
Qed.

Lemma foldr_vadd_push acc v vs :
  Forall2 Qeq (foldr vadd (vadd acc v) vs) (vadd v (foldr vadd acc vs)).
Proof.
  induction vs as [|u vs IH]; simpl.
  - apply vadd_comm.
  - eapply veq_trans; [apply vadd_proper; [apply veq_refl|apply IH]|].
    eapply veq_trans; [apply vadd_comm|].
    eapply veq_trans; [apply vadd_assoc|].
    apply vadd_proper; [apply veq_refl|apply vadd_comm].
Qed.

Lemma zip_with_take_l {A B C} (f : A -> B -> C) n l k :
  length k <= n -> zip_with f (take n l) k = zip_with f l k.
Proof.
  revert l k. induction n as [|n IH]; intros l k Hk.
  - destruct k; [|simpl in Hk; lia]. by destruct l.
  - destruct l as [|a l]; [done|]. destruct k as [|b k]; [done|].
    simpl in *. f_equal. apply IH. lia.
Qed.

(** The inner loop of [run]: the weighted sum of one block of [y]. *)
Lemma block_average (yy : matrix) (ws : vec) off n s acc e :
  foldlM (fun acc j =>
            yr ← yy !! (off + j);
            wj ← ws !! j;
            Some (vadd acc (vscale wj yr)))
         acc (seq s n) = Some e ->
  Forall2 Qeq e
    (foldr vadd acc
       (zip_with vscale (take n (drop s ws)) (take n (drop (off + s) yy)))).
Proof.
  revert s acc. induction n as [|n IH]; intros s acc Hrun; simpl in Hrun.
  - injection Hrun as <-. simpl. apply veq_refl.
  - apply bind_Some in Hrun as (acc1 & Hstep & Hrun).
    apply bind_Some in Hstep as (yr & Hyr & Hstep).
    apply bind_Some in Hstep as (wj & Hwj & Hstep). injection Hstep as <-.
    apply IH in Hrun.
    rewrite (drop_S _ _ _ Hwj), (drop_S _ _ _ Hyr). simpl.
    replace (off + S s) with (S (off + s)) in Hrun by lia.
    eapply veq_trans; [exact Hrun|]. apply foldr_vadd_push.
Qed.

(** A loop that stores one computed value per index. *)
Lemma store_loop {A} (val : nat -> option A) (ixs : list nat) acc acc' :
  foldlM (fun acc i => v ← val i; guard (i < length acc);; Some (<[i := v]> acc))
         acc ixs = Some acc' ->
  length acc' = length acc /\
  (forall i, i ∉ ixs -> acc' !! i = acc !! i) /\
  (NoDup ixs -> forall i, i ∈ ixs -> exists v, acc' !! i = Some v /\ val i = Some v).
Proof.
  revert acc. induction ixs as [|a ixs IH]; intros acc Hrun; simpl in Hrun.
  - injection Hrun as <-. split; [done|]. split; [done|].
    intros _ i Hi. by apply elem_of_nil in Hi.
  - apply bind_Some in Hrun as (acc1 & Hstep & Hrun).
    apply bind_Some in Hstep as (v & Hv & Hstep).
    apply bind_Some in Hstep as (Hlt & _ & Hstep). injection Hstep as <-.
    destruct (IH _ Hrun) as (Hlen & Hout & Hin).
    rewrite length_insert in Hlen.
    split; [done|]. split.
    + intros i Hi. apply not_elem_of_cons in Hi as [Hne Hi].
      rewrite Hout by done. by rewrite list_lookup_insert_ne.
    + intros Hnd i Hi. apply NoDup_cons in Hnd as [Ha Hnd].
      apply elem_of_cons in Hi as [->|Hi].
      * exists v. split; [|done]. rewrite Hout by done.
        by apply list_lookup_insert_eq.
      * by apply Hin.
Qed.

(** [run] evaluates every sample added since the last call: afterwards the
    number of evaluated samples has caught up with the number of added ones,
    the masks, weights and synthetic rows are as before, and the expected
    values of the samples outside the new window are untouched. *)
Theorem run_spec st st' :
  run st = Some st' ->
  cfg st' = cfg st /\ inst st' = inst st /\
  synth_data (buf st') = synth_data (buf st) /\
  maskMatrix (buf st') = maskMatrix (buf st) /\
  kernelWeights (buf st') = kernelWeights (buf st) /\
  nsamplesAdded (buf st') = nsamplesAdded (buf st) /\
  nsamplesRun (buf st')
    = Nat.max (nsamplesRun (buf st)) (nsamplesAdded (buf st)) /\
  length (ey (buf st')) = length (ey (buf st)) /\
  (forall i, ~ (nsamplesRun (buf st) <= i < nsamplesAdded (buf st)) ->
     ey (buf st') !! i = ey (buf st) !! i).
Proof.
  unfold run. intros Hrun.
  apply bind_Some in Hrun as (_ & _ & Hrun).
  apply bind_Some in Hrun as (_ & _ & Hrun).
  apply bind_Some in Hrun as (ey' & Hey & Hrun). injection Hrun as <-.
  simpl. apply store_loop in Hey as (Hlen & Hout & _).
  repeat (split; [done|]). split; [lia|]. split; [done|].
  intros i Hi. apply Hout. rewrite elem_of_seq. lia.
Qed.

(** Each newly evaluated sample gets as expected value the weighted sum of
    its block of [N] model outputs, the same weighted column sum that
    [__init__] uses for the baseline. *)
Theorem run_expected_value st st' i :
  run st = Some st' ->
  nsamplesRun (buf st) <= i < nsamplesAdded (buf st) ->
  exists e, ey (buf st') !! i = Some e /\
    Forall2 Qeq e
      (weighted_colsum (D (cfg st))
         (take (N (cfg st)) (drop (i * N (cfg st)) (y (buf st'))))
         (weights (cfg st))).
Proof.
  unfold run. intros Hrun Hi.
  apply bind_Some in Hrun as (_ & _ & Hrun).
  apply bind_Some in Hrun as (_ & _ & Hrun).
  apply bind_Some in Hrun as (ey' & Hey & Hrun). injection Hrun as <-.
  simpl. apply store_loop in Hey as (_ & _ & Hin).
  destruct (Hin (NoDup_seq _ _) i) as (e & He & Hval).
  { rewrite elem_of_seq. lia. }
  exists e. split; [exact He|].
  apply block_average in Hval. rewrite drop_0, Nat.add_0_r in Hval.
  unfold weighted_colsum.
  rewrite zip_with_take_l in Hval by (rewrite length_take; lia).
  exact Hval.
Qed.

Lemma run_spec_witness :
  let st := default Reference.sum3
              (s_state <$> sample_coalitions (H := Reference.externals)
                 (Reference.prepared Reference.sum3 Reference.x123) []
                 Reference.x123 Reference.no_kwargs) in
  exists st',
    run st = Some st' /\
    nsamplesAdded (buf st) = 6 /\
    nsamplesRun (buf st')
      = Nat.max (nsamplesRun (buf st)) (nsamplesAdded (buf st)).
Proof.
  intros st.
  assert (Hn : (fun s => nsamplesRun (buf s)) <$> run st = Some 6)
    by (vm_compute; reflexivity).
  apply fmap_Some in Hn as (st' & Hrun & _).
  exists st'. split; [exact Hrun|].
  split; [vm_compute; reflexivity|].
  destruct (run_spec st st' Hrun) as (_ & _ & _ & _ & _ & _ & Hr & _).
  exact Hr.
Defined.

Lemma run_expected_value_witness :
  let st := default Reference.sum3
              (s_state <$> sample_coalitions (H := Reference.externals)
                 (Reference.prepared Reference.sum3 Reference.x123) []
                 Reference.x123 Reference.no_kwargs) in
  exists st' e,
    run st = Some st' /\
    ey (buf st') !! 2 = Some e /\
    Forall2 Qeq e
      (weighted_colsum (D (cfg st))
         (take (N (cfg st)) (drop (2 * N (cfg st)) (y (buf st'))))
         (weights (cfg st))).
Proof.
  intros st.
  assert (Hn : (fun s => nsamplesRun (buf s)) <$> run st = Some 6)
    by (vm_compute; reflexivity).
  apply fmap_Some in Hn as (st' & Hrun & _).
  assert (Hi : nsamplesRun (buf st) <= 2 < nsamplesAdded (buf st))
    by (vm_compute; lia).
  destruct (run_expected_value st st' 2 Hrun Hi) as (e & He & Hval).
  exists st', e. split; [exact Hrun|]. split; [exact He|exact Hval].
Defined.

(** ** The synthetic rows [addsample] writes *)

Lemma overwritten_ext cast x offset n sd0 (W W' : nat -> Prop) sd :
  (forall k, W k <-> W' k) ->
  overwritten cast x offset n sd0 W sd -> overwritten cast x offset n sd0 W' sd.
Proof.
  intros Hext [Hlen Hrows]. split; [done|].
  intros r row0 Hr0. destruct (Hrows r row0 Hr0) as (row & Hr & Hl & Hout & Hin).
  exists row. split; [done|]. split; [done|]. split; [done|].
  intros Hb k Hk. destruct (Hin Hb k Hk) as [Hw Hnw]. split.
  - intros HW. apply Hw. by apply Hext.
  - intros HW. apply Hnw. intros HW'. apply HW. by apply Hext.
Qed.

Lemma overwritten_write_block cast x offset n sd0 (W : nat -> Prop) sd k v :
  overwritten cast x offset n sd0 W sd ->
  x !! k = Some v ->
  overwritten cast x offset n sd0 (fun k' => k' = k \/ W k')
    (write_block cast sd offset n k v).
Proof.
  intros [Hlen Hrows] Hx. unfold write_block. split.
  - by rewrite length_imap.
  - intros r row0 Hr0.
    destruct (Hrows r row0 Hr0) as (row & Hr & Hl & Hout & Hin).
    rewrite list_lookup_imap, Hr. simpl. case_bool_decide as Hb.
    + exists (<[k := cast v]> row). split; [done|]. rewrite length_insert.
      split; [done|]. split; [done|].
      intros _ k' Hk'. destruct (Hin Hb k' Hk') as [Hw Hnw]. split.
      * intros HW. destruct (decide (k' = k)) as [->|Hne].
        -- rewrite Hx. simpl. apply list_lookup_insert_eq. lia.
        -- rewrite list_lookup_insert_ne by done. apply Hw. tauto.
      * intros HW. rewrite list_lookup_insert_ne.
        -- apply Hnw. tauto.
        -- intros ->. tauto.
    + exists row. split; [done|]. split; [done|]. split; [done|]. tauto.
Qed.

Lemma overwritten_group cast x p offset n sd0 (mj : bool) grp :
  forall (W : nat -> Prop) sd sd',
  foldlM (fun sd k =>
            if mj then
              v ← x !! k;
              guard (k < p);;
              Some (write_block cast sd offset n k v)
            else Some sd) sd grp = Some sd' ->
  overwritten cast x offset n sd0 W sd ->
  overwritten cast x offset n sd0 (fun k => W k \/ (mj = true /\ k ∈ grp)) sd'.
Proof.
  induction grp as [|k grp IH]; intros W sd sd' Hrun HJ; simpl in Hrun.
  - injection Hrun as <-. eapply overwritten_ext; [|exact HJ].
    intros k. split; [tauto|]. intros [?|[_ Hk]]; [done|].
    by apply elem_of_nil in Hk.
  - apply bind_Some in Hrun as (sd1 & Hstep & Hrun).
    destruct mj.
    + apply bind_Some in Hstep as (v & Hv & Hstep).
      apply bind_Some in Hstep as (_ & _ & Hstep). injection Hstep as <-.
      eapply overwritten_ext;
        [|exact (IH _ _ _ Hrun (overwritten_write_block _ _ _ _ _ _ _ _ _ HJ Hv))].
      intros k'. cbv beta. rewrite elem_of_cons. tauto.
    + injection Hstep as <-.
      eapply overwritten_ext; [|exact (IH _ _ _ Hrun HJ)].
      intros k'. cbv beta. split; (intros [?|[? _]]; [tauto|done]).
Qed.

Lemma overwritten_groups cast x p offset n sd0 (vfg : list (list nat)) (m : mask) js :
  forall (W : nat -> Prop) sd sd',
  foldlM (fun sd j =>
            grp ← vfg !! j;
            mj ← m !! j;
            foldlM (fun sd k =>
                      if (mj : bool) then
                        v ← x !! k;
                        guard (k < p);;
                        Some (write_block cast sd offset n k v)
                      else Some sd) sd grp) sd js = Some sd' ->
  overwritten cast x offset n sd0 W sd ->
  overwritten cast x offset n sd0
    (fun k => W k \/ exists j grp, j ∈ js /\ vfg !! j = Some grp /\
                       m !! j = Some true /\ k ∈ grp) sd'.
Proof.
  induction js as [|j js IH]; intros W sd sd' Hrun HJ; simpl in Hrun.
  - injection Hrun as <-. eapply overwritten_ext; [|exact HJ].
    intros k. split; [tauto|]. intros [?|(j & grp & Hj & _)]; [done|].
    by apply elem_of_nil in Hj.
  - apply bind_Some in Hrun as (sd1 & Hstep & Hrun).
    apply bind_Some in Hstep as (grp & Hgrp & Hstep).
    apply bind_Some in Hstep as (mj & Hmj & Hstep).
    eapply overwritten_ext;
      [|exact (IH _ _ _ Hrun (overwritten_group _ _ _ _ _ _ _ _ _ _ _ Hstep HJ))].
    intros k. cbv beta. split.
    + intros [[HW|[-> Hk]]|(j' & grp' & Hj' & Hg' & Hm' & Hk)].
      * by left.
      * right. exists j, grp. rewrite elem_of_cons. tauto.
      * right. exists j', grp'. rewrite elem_of_cons. tauto.
    + intros [HW|(j' & grp' & Hj' & Hg' & Hm' & Hk)]; [tauto|].
      apply elem_of_cons in Hj' as [->|Hj'].
      * left. right. rewrite Hgrp in Hg'. rewrite Hmj in Hm'.
        injection Hg' as ->. injection Hm' as ->. done.
      * right. exists j', grp'. done.
Qed.

(** [addsample] writes the instance's values into the synthetic rows of the
    current sample only: in the block of [N] rows of the new sample, the
    columns of the groups the mask marks as known take the values of the
    instance, converted to the element type of the background array, and
    every other column keeps its background value; all other rows and the
    shape of the synthetic data are unchanged. *)
Theorem addsample_synth_data st x m w st' :
  addsample st x m w = Some st' ->
  let offset := nsamplesAdded (buf st) * N (cfg st) in
  let known k := exists j grp, j < M (inst st) /\
                   varyingFeatureGroups (inst st) !! j = Some grp /\
                   m !! j = Some true /\ k ∈ grp in
  length (synth_data (buf st')) = length (synth_data (buf st)) /\
  forall r row0, synth_data (buf st) !! r = Some row0 ->
    exists row, synth_data (buf st') !! r = Some row /\
      length row = length row0 /\
      (~ (offset <= r < offset + N (cfg st)) -> row = row0) /\
      (offset <= r < offset + N (cfg st) -> forall k, k < length row0 ->
         (known k -> row !! k = astype (cfg st) <$> x !! k) /\
         (~ known k -> row !! k = row0 !! k)).
Proof.
  intros Hrun offset known. unfold addsample in Hrun.
  apply bind_Some in Hrun as (sd & Hsd & Hrun).
  apply bind_Some in Hrun as (_ & _ & Hrun).
  apply bind_Some in Hrun as (_ & _ & Hrun). injection Hrun as <-. simpl.
  assert (H0 : overwritten (astype (cfg st)) x offset (N (cfg st))
                 (synth_data (buf st)) (fun _ => False) (synth_data (buf st))).
  { split; [done|]. intros r row0 Hr0. exists row0. tauto. }
  pose proof (overwritten_groups _ _ _ _ _ _ _ _ _ _ _ _ Hsd H0) as HJ.
  apply (overwritten_ext _ _ _ _ _ _ known) in HJ; [exact HJ|].
  intros k. unfold known. split.
  - intros [[]|(j & grp & Hj & Hrest)]. exists j, grp.
    apply elem_of_seq in Hj. split; [lia|done].
  - intros (j & grp & Hj & Hrest). right. exists j, grp.
    rewrite elem_of_seq. split; [lia|done].
Qed.

(** [addsample_synth_data] on an integer background: the instance value
    [3/2] of the known first group is stored as [1]. *)
Lemma addsample_synth_data_witness :
  let st := Reference.allocated Reference.sum3_int Reference.x_half
              Reference.no_kwargs in
  exists st' row,
    addsample st Reference.x_half [true; false; false] (1 # 6) = Some st' /\
    synth_data (buf st') !! 0 = Some row /\
    row !! 0 = Some 1%Q.
Proof.
  intros st.
  assert (Hn : (fun s => nsamplesAdded (buf s))
                 <$> addsample st Reference.x_half [true; false; false] (1 # 6)
               = Some 1) by (vm_compute; reflexivity).
  apply fmap_Some in Hn as (st' & Hrun & _).
  destruct (addsample_synth_data _ _ _ _ _ Hrun) as [_ Hrows].
  assert (Hr0 : synth_data (buf st) !! 0 = Some [0; 0; 0]%Q)
    by (vm_compute; reflexivity).
  destruct (Hrows 0 _ Hr0) as (row & Hrow & _ & _ & Hin).
  exists st', row. split; [exact Hrun|]. split; [exact Hrow|].
  assert (Hblock : nsamplesAdded (buf st) * N (cfg st) <= 0
                   < nsamplesAdded (buf st) * N (cfg st) + N (cfg st))
    by (vm_compute; lia).
  destruct (Hin Hblock 0 ltac:(simpl; lia)) as [Hknown _].
  rewrite Hknown; [vm_compute; reflexivity|].
  exists 0, [0]. split; [vm_compute; lia|]. split; [vm_compute; reflexivity|].
  split; [reflexivity|by left].
Defined.

(** ** The attributions [explain] returns *)

Lemma set_entry_frame (phi : matrix) i d v phi' :
  set_entry phi i d v = Some phi' ->
  length <$> phi' = length <$> phi /\
  (forall j, j <> i -> phi' !! j = phi !! j).
Proof.
  unfold set_entry. intros Hrun.
  apply bind_Some in Hrun as (row & Hrow & Hrun).
  apply bind_Some in Hrun as (_ & _ & Hrun). injection Hrun as <-.
  split.
  - rewrite list_fmap_insert, length_insert. apply list_insert_id.
    by rewrite list_lookup_fmap, Hrow.
  - intros j Hj. by rewrite list_lookup_insert_ne.
Qed.

Lemma assign_col_frame (phi : matrix) rws d vals phi' :
  assign_col phi rws d vals = Some phi' ->
  length <$> phi' = length <$> phi /\
  (forall j, j ∉ rws -> phi' !! j = phi !! j).
Proof.
  unfold assign_col. intros Hrun.
  apply bind_Some in Hrun as (_ & _ & Hrun).
  revert Hrun.
  apply (foldlM_invariant
           (fun p => length <$> p = length <$> phi /\
                     (forall j, j ∉ rws -> p !! j = phi !! j))); [|done].
  intros p [i v] p' Hin [Hlen Hout] Hstep.
  apply set_entry_frame in Hstep as [Hlen' Hout'].
  split; [congruence|].
  intros j Hj. rewrite Hout'; [by apply Hout|].
  intros ->. apply Hj. apply elem_of_zip_l in Hin. exact Hin.
Qed.

Section Output.
Context `{Externals}.

Lemma solve_all_frame st zeros phi phi_var warns :
  solve_all st zeros = Some (phi, phi_var, warns) ->
  length <$> phi = length <$> zeros /\
  (forall j, j ∉ varyingInds (inst st) -> phi !! j = zeros !! j).
Proof.
  unfold solve_all. intros Hrun.
  change ((fun p : matrix * matrix * list string =>
             length <$> p.1.1 = length <$> zeros /\
             (forall j, j ∉ varyingInds (inst st) -> p.1.1 !! j = zeros !! j))
            (phi, phi_var, warns)).
  revert Hrun. apply foldlM_invariant; [|done].
  clear. intros [[p pv] ws] d [[p' pv'] ws'] _ [Hlen Hout] Hstep. simpl in *.
  destruct (solve st _ d) as [ws1 r].
  apply bind_Some in Hstep as ([vphi vphi_var] & _ & Hstep).
  apply bind_Some in Hstep as (p1 & Hp1 & Hstep).
  apply bind_Some in Hstep as (pv1 & _ & Hstep).
  injection Hstep as <- <- <-.
  apply assign_col_frame in Hp1 as [Hlen1 Hout1].
  split; [congruence|]. intros j Hj. rewrite Hout1 by done. by apply Hout.
Qed.

Lemma sample_coalitions_frame st g x kw s :
  sample_coalitions st g x kw = Some s ->
  cfg (s_state s) = cfg st /\
  varyingInds (inst (s_state s)) = varyingInds (inst st).
Proof.
  unfold sample_coalitions. intros Hrun.
  apply bind_Some in Hrun as (st1 & Hal & Hrun).
  apply sampling_capacity in Hrun as (Hcfg & Hinst & _).
  - rewrite Hcfg, Hinst. unfold allocate in Hal.
    apply bind_Some in Hal as (_ & _ & Hal). injection Hal as <-.
    simpl. unfold configure. by destruct (budget _ _).
  - unfold allocate in Hal.
    apply bind_Some in Hal as (_ & _ & Hal). injection Hal as <-.
    simpl. lia.
Qed.

Lemma explain_rows st g x kw phi :
  explain st g x kw = Some phi ->
  exists vi, varying_groups (cfg st) x = Some vi /\
    length <$> phi
      = replicate (groups_size (cfg st)) (D (cfg st)) /\
    (forall j, j ∉ vi ->
       phi !! j
       = replicate (groups_size (cfg st)) (replicate (D (cfg st)) 0%Q) !! j).
Proof.
  unfold explain. intros Hrun.
  apply fmap_Some in Hrun as (e & Hrun & ->).
  unfold explain_body in Hrun.
  apply bind_Some in Hrun as (st1 & Hprep & Hrun).
  destruct (prepare_spec _ _ _ Hprep) as (Hcfg & _ & HM & _ & _).
  assert (Hvi : varying_groups (cfg st) x = Some (varyingInds (inst st1))).
  { unfold prepare in Hprep.
    apply bind_Some in Hprep as (vi & Hvi & Hprep).
    apply bind_Some in Hprep as (vfg & _ & Hprep).
    apply bind_Some in Hprep as (fxv & _ & Hprep).
    by injection Hprep as <-. }
  exists (varyingInds (inst st1)). split; [exact Hvi|].
  rewrite Hcfg in Hrun.
  set (zeros := replicate (groups_size (cfg st)) (replicate (D (cfg st)) 0%Q))
    in *.
  assert (Hz : length <$> zeros
               = replicate (groups_size (cfg st)) (D (cfg st))).
  { unfold zeros. by rewrite fmap_replicate, length_replicate. }
  rewrite <- Hz.
  destruct (M (inst st1)) as [|[|m]] eqn:HMeq.
  - by injection Hrun as <-.
  - apply bind_Some in Hrun as (i0 & Hi0 & Hrun).
    apply bind_Some in Hrun as (phi & Hphi & Hrun). injection Hrun as <-.
    simpl. revert Hphi.
    apply (foldlM_invariant
             (fun p => length <$> p = length <$> zeros /\
                       (forall j, j ∉ varyingInds (inst st1) ->
                          p !! j = zeros !! j))); [|done].
    intros p d p' _ [Hlen Hout] Hstep.
    apply bind_Some in Hstep as (v & _ & Hstep).
    apply set_entry_frame in Hstep as [Hlen' Hout'].
    split; [congruence|]. intros j Hj. rewrite Hout'; [by apply Hout|].
    intros ->. apply Hj. destruct (varyingInds (inst st1)); [done|].
    injection Hi0 as ->. by left.
  - apply bind_Some in Hrun as (s & Hs & Hrun).
    apply bind_Some in Hrun as (st2 & Hrun2 & Hrun).
    apply bind_Some in Hrun as ([[phi phi_var] warns] & Hsolve & Hrun).
    injection Hrun as <-. simpl.
    apply solve_all_frame in Hsolve.
    destruct (sample_coalitions_frame _ _ _ _ _ Hs) as [_ Hvis].
    assert (Hi2 : inst st2 = inst (s_state s)).
    { unfold run in Hrun2.
      apply bind_Some in Hrun2 as (_ & _ & Hrun2).
      apply bind_Some in Hrun2 as (_ & _ & Hrun2).
      apply bind_Some in Hrun2 as (ey' & _ & Hrun2).
      by injection Hrun2 as <-. }
    rewrite Hi2, Hvis in Hsolve. exact Hsolve.
Qed.

(** [explain] returns one row per feature group and one entry per model
    output in every row. *)
Theorem explain_output_shape st g x kw phi :
  explain st g x kw = Some phi ->
  length phi = groups_size (cfg st) /\
  Forall (fun row => length row = D (cfg st)) phi.
Proof.
  intros Hrun.
  destruct (explain_rows _ _ _ _ _ Hrun) as (vi & _ & Hlen & _).
  split.
  - apply (f_equal length) in Hlen.
    by rewrite length_fmap, length_replicate in Hlen.
  - apply Forall_forall. intros row Hrow.
    apply list_elem_of_lookup in Hrow as [i Hi].
    apply (f_equal (fun l => l !! i)) in Hlen.
    rewrite list_lookup_fmap, Hi in Hlen. simpl in Hlen. symmetry in Hlen.
    apply lookup_replicate in Hlen as [Hlen _]. congruence.
Qed.

(** A feature group that [varying_groups] does not report receives the
    attribution zero for every model output. *)
Theorem nonvarying_groups_zero st g x kw phi vi i :
  explain st g x kw = Some phi ->
  varying_groups (cfg st) x = Some vi ->
  i ∉ vi ->
  i < groups_size (cfg st) ->
  phi !! i = Some (replicate (D (cfg st)) 0%Q).
Proof.
  intros Hrun Hvi Hi Hlt.
  destruct (explain_rows _ _ _ _ _ Hrun) as (vi' & Hvi' & _ & Hout).
  rewrite Hvi in Hvi'. injection Hvi' as <-.
  rewrite Hout by done. by apply lookup_replicate_2.
Qed.

End Output.

Lemma explain_output_shape_witness :
  exists phi,
    explain (H := Reference.externals) Reference.sum3 [] Reference.x123
      Reference.no_kwargs = Some phi /\
    length phi = groups_size (cfg Reference.sum3) /\
    Forall (fun row => length row = D (cfg Reference.sum3)) phi.
Proof.
  assert (Hn : length <$> explain (H := Reference.externals) Reference.sum3 []
                 Reference.x123 Reference.no_kwargs = Some 3)
    by (vm_compute; reflexivity).
  apply fmap_Some in Hn as (phi & Hrun & _).
  exists phi. split; [exact Hrun|].
  exact (explain_output_shape _ _ _ _ _ Hrun).
Defined.

Lemma nonvarying_groups_zero_witness :
  let x := [1; 2; 0]%Q in
  exists phi,
    explain (H := Reference.externals) Reference.sum3 [] x
      Reference.no_kwargs = Some phi /\
    phi !! 2 = Some (replicate (D (cfg Reference.sum3)) 0%Q).
Proof.
  intros x.
  assert (Hn : length <$> explain (H := Reference.externals) Reference.sum3 []
                 x Reference.no_kwargs = Some 3)
    by (vm_compute; reflexivity).
  apply fmap_Some in Hn as (phi & Hrun & _).
  assert (Hvi : varying_groups (cfg Reference.sum3) x = Some [0; 1])
    by (vm_compute; reflexivity).
  exists phi. split; [exact Hrun|].
  apply (nonvarying_groups_zero (H := Reference.externals) _ _ _ _ _ [0; 1] 2
           Hrun Hvi).
  - rewrite !elem_of_cons, elem_of_nil. lia.
  - vm_compute. lia.
Defined.

(** ** What [explain] leaves alone *)

Section Frame.
Context `{Externals}.

(** [explain] never touches what [__init__] has fixed: the model, the link,
    the background data with its groups and weights, and the baseline. *)
Theorem explain_keeps_configuration st g x kw e :
  explain_body st g x kw = Some e ->
  cfg (e_state e) = cfg st.
Proof.
  unfold explain_body. intros Hrun.
  apply bind_Some in Hrun as (st1 & Hprep & Hrun).
  destruct (prepare_spec _ _ _ Hprep) as (Hcfg & _).
  destruct (M (inst st1)) as [|[|m]].
  - by injection Hrun as <-.
  - apply bind_Some in Hrun as (i0 & _ & Hrun).
    apply bind_Some in Hrun as (phi & _ & Hrun). by injection Hrun as <-.
  - apply bind_Some in Hrun as (s & Hs & Hrun).
    apply bind_Some in Hrun as (st2 & Hrun2 & Hrun).
    apply bind_Some in Hrun as ([[phi phi_var] warns] & _ & Hrun).
    injection Hrun as <-. simpl.
    destruct (sample_coalitions_frame _ _ _ _ _ Hs) as [Hc _].
    unfold run in Hrun2.
    apply bind_Some in Hrun2 as (_ & _ & Hrun2).
    apply bind_Some in Hrun2 as (_ & _ & Hrun2).
    apply bind_Some in Hrun2 as (ey' & _ & Hrun2).
    injection Hrun2 as <-. simpl. congruence.
Qed.

End Frame.

Lemma explain_keeps_configuration_witness :
  exists e,
    explain_body (H := Reference.externals) Reference.sum3 [] Reference.x123
      Reference.no_kwargs = Some e /\
    cfg (e_state e) = cfg Reference.sum3.
Proof.
  assert (Hn : (fun e => length (e_phi e))
                 <$> explain_body (H := Reference.externals) Reference.sum3 []
                       Reference.x123 Reference.no_kwargs = Some 3)
    by (vm_compute; reflexivity).
  apply fmap_Some in Hn as (e & Hrun & _).
  exists e. split; [exact Hrun|].
  exact (explain_keeps_configuration _ _ _ _ _ Hrun).
Defined.

(** ** How [explain] places what [solve] returns *)

Lemma set_entry_column (phi : matrix) i d v phi' :
  set_entry phi i d v = Some phi' ->
  i < length phi /\
  column d phi' = <[i := v]> (column d phi) /\
  (forall d', d' <> d -> column d' phi' = column d' phi).
Proof.
  unfold set_entry, column. intros Hrun.
  apply bind_Some in Hrun as (row & Hrow & Hrun).
  apply bind_Some in Hrun as (Hd & _ & Hrun). injection Hrun as <-.
  split; [by eapply lookup_lt_Some|]. split.
  - rewrite list_fmap_insert. f_equal.
    apply nth_lookup_Some with (d := 0%Q).
    by apply list_lookup_insert_eq.
  - intros d' Hd'. rewrite list_fmap_insert. apply list_insert_id.
    rewrite list_lookup_fmap, Hrow. simpl. f_equal.
    destruct (decide (d' < length row)) as [Hlt|Hge].
    + destruct (lookup_lt_is_Some_2 row d' Hlt) as [a Ha].
      rewrite (nth_lookup_Some _ _ 0%Q _ Ha). symmetry.
      apply nth_lookup_Some. by rewrite list_lookup_insert_ne.
    + by rewrite !nth_overflow by (rewrite ?length_insert; lia).
Qed.

Lemma assign_col_column (phi : matrix) rws d vals phi' :
  assign_col phi rws d vals = Some phi' ->
  assign (column d phi) rws vals = Some (column d phi') /\
  (forall d', d' <> d -> column d' phi' = column d' phi).
Proof.
  unfold assign_col, assign. intros Hrun.
  apply bind_Some in Hrun as (Hlen & _ & Hrun).
  rewrite option_guard_True by done. simpl. clear Hlen.
  revert phi Hrun. generalize (zip rws vals) as ivs.
  induction ivs as [|[i v] ivs IH]; intros phi Hrun; simpl in Hrun.
  - by injection Hrun as <-.
  - apply bind_Some in Hrun as (phi1 & Hstep & Hrun).
    apply set_entry_column in Hstep as (Hi & Hcol & Hother).
    destruct (IH _ Hrun) as [Hrec Hother'].
    split.
    + simpl. rewrite option_guard_True
        by (unfold column; rewrite length_map; exact Hi).
      simpl. rewrite <- Hcol. exact Hrec.
    + intros d' Hd'. rewrite Hother' by done. by apply Hother.
Qed.

Section Scatter.
Context `{Externals}.

Lemma solve_all_column st zeros phi phi_var warns d :
  solve_all st zeros = Some (phi, phi_var, warns) ->
  d < D (cfg st) ->
  exists vphi var,
    (solve st (inject_Z (nsamples (inst st)) / inject_Z (max_samples (inst st)))
       d).2 = Some (vphi, var) /\
    assign (column d zeros) (varyingInds (inst st)) vphi
      = Some (column d phi).
Proof.
  unfold solve_all. intros Hrun Hd.
  set (frac := (inject_Z (nsamples (inst st))
                / inject_Z (max_samples (inst st)))%Q) in *.
  match type of Hrun with
  | foldlM ?f _ _ = _ => set (step := f) in Hrun
  end.
  assert (Hstep : forall p pv ws d' p' pv' ws',
             step (p, pv, ws) d' = Some (p', pv', ws') ->
             exists vphi var, (solve st frac d').2 = Some (vphi, var) /\
               assign_col p (varyingInds (inst st)) d' vphi = Some p').
  { intros p pv ws d' p' pv' ws' Hs. unfold step in Hs.
    destruct (solve st frac d') as [ws1 r]. simpl.
    apply bind_Some in Hs as ([vphi var] & Hr & Hs).
    apply bind_Some in Hs as (p1 & Hp1 & Hs).
    apply bind_Some in Hs as (pv1 & _ & Hs). injection Hs as <- <- <-.
    by exists vphi, var. }
  assert (Hkeep : forall l acc acc',
             d ∉ l -> foldlM step acc l = Some acc' ->
             column d acc'.1.1 = column d acc.1.1).
  { intros l acc acc' Hl Hfold.
    change ((fun a : matrix * matrix * list string =>
               column d a.1.1 = column d acc.1.1) acc').
    revert Hfold. apply foldlM_invariant; [|done].
    intros [[p pv] ws] d' [[p' pv'] ws'] Hin Hinv Hs. simpl in *.
    destruct (Hstep _ _ _ _ _ _ _ Hs) as (vphi & var & _ & Hp).
    apply assign_col_column in Hp as [_ Hother].
    rewrite Hother; [done|]. intros ->. by apply Hl. }
  replace (seq 0 (D (cfg st)))
    with (seq 0 d ++ d :: seq (S d) (D (cfg st) - S d)) in Hrun.
  2:{ change (d :: seq (S d) (D (cfg st) - S d))
        with (seq d (S (D (cfg st) - S d))).
      rewrite <- seq_app. f_equal. lia. }
  rewrite foldlM_app in Hrun.
  apply bind_Some in Hrun as ([[p1 pv1] ws1] & H1 & Hrun).
  simpl in Hrun.
  apply bind_Some in Hrun as ([[p2 pv2] ws2] & H2 & Hrun).
  apply Hkeep in H1; [|rewrite elem_of_seq; lia].
  apply Hkeep in Hrun; [|rewrite elem_of_seq; lia].
  simpl in H1, Hrun.
  destruct (Hstep _ _ _ _ _ _ _ H2) as (vphi & var & Hsolve & Hp).
  apply assign_col_column in Hp as [Hassign _].
  exists vphi, var. split; [exact Hsolve|].
  by rewrite Hrun, <- H1.
Qed.

Lemma column_zeros d n k :
  column d (replicate n (replicate k 0%Q)) = replicate n 0%Q.
Proof.
  unfold column. rewrite fmap_replicate. f_equal.
  destruct (decide (d < k)) as [Hlt|Hge].
  - apply nth_lookup_Some. by apply lookup_replicate_2.
  - apply nth_overflow. rewrite length_replicate. lia.
Qed.

(** In the sampling-and-solve branch, for every model output [d] the
    attributions [explain] returns are the vector [solve] returns for [d],
    written in order at the rows of the varying groups; every other row
    holds zero. *)
Theorem explain_scatters_solve st g x kw e d :
  explain_body st g x kw = Some e ->
  2 <= M (inst (e_state e)) ->
  d < D (cfg st) ->
  exists vphi var,
    (solve (e_state e)
       (inject_Z (nsamples (inst (e_state e)))
        / inject_Z (max_samples (inst (e_state e)))) d).2 = Some (vphi, var) /\
    length vphi = length (varyingInds (inst (e_state e))) /\
    (forall k i, varyingInds (inst (e_state e)) !! k = Some i ->
       column d (e_phi e) !! i = vphi !! k) /\
    (forall i, i ∉ varyingInds (inst (e_state e)) ->
       i < groups_size (cfg st) -> column d (e_phi e) !! i = Some 0%Q).
Proof.
  unfold explain_body. intros Hrun HM Hd.
  apply bind_Some in Hrun as (st1 & Hprep & Hrun).
  destruct (prepare_spec _ _ _ Hprep) as (Hcfg & _ & _ & Hnd & Hall).
  destruct (M (inst st1)) as [|[|m]] eqn:HM1.
  - injection Hrun as <-. simpl in HM. lia.
  - apply bind_Some in Hrun as (i0 & _ & Hrun).
    apply bind_Some in Hrun as (phi & _ & Hrun). injection Hrun as <-.
    simpl in HM. lia.
  - apply bind_Some in Hrun as (s & Hs & Hrun).
    apply bind_Some in Hrun as (st2 & Hrun2 & Hrun).
    apply bind_Some in Hrun as ([[phi phi_var] warns] & Hsolve & Hrun).
    injection Hrun as <-. cbn [e_state e_phi] in *.
    destruct (sample_coalitions_frame _ _ _ _ _ Hs) as [Hc Hvis].
    assert (Hst2 : cfg st2 = cfg (s_state s) /\ inst st2 = inst (s_state s)).
    { unfold run in Hrun2.
      apply bind_Some in Hrun2 as (_ & _ & Hrun2).
      apply bind_Some in Hrun2 as (_ & _ & Hrun2).
      apply bind_Some in Hrun2 as (ey' & _ & Hrun2).
      by injection Hrun2 as <-. }
    destruct Hst2 as [Hc2 Hi2].
    assert (Hd2 : d < D (cfg st2)) by (rewrite Hc2, Hc, Hcfg; exact Hd).
    destruct (solve_all_column _ _ _ _ _ _ Hsolve Hd2)
      as (vphi & var & Hsol & Hassign).
    rewrite Hcfg, column_zeros in Hassign.
    assert (Hnd2 : NoDup (varyingInds (inst st2)))
      by (by rewrite Hi2, Hvis).
    destruct (assign_lookup _ _ _ _ Hassign Hnd2) as [Hget Hkeep].
    exists vphi, var. split; [exact Hsol|]. split.
    { unfold assign in Hassign.
      by apply bind_Some in Hassign as (Hl & _ & _). }
    split; [exact Hget|].
    intros i Hi Hlt. rewrite Hkeep by done. by apply lookup_replicate_2.
Qed.

End Scatter.

Lemma explain_scatters_solve_witness :
  exists e vphi var,
    explain_body (H := Reference.externals) Reference.sum3 [] Reference.x123
      Reference.no_kwargs = Some e /\
    (solve (H := Reference.externals) (e_state e)
       (inject_Z (nsamples (inst (e_state e)))
        / inject_Z (max_samples (inst (e_state e)))) 0).2 = Some (vphi, var) /\
    forall k i, varyingInds (inst (e_state e)) !! k = Some i ->
      column 0 (e_phi e) !! i = vphi !! k.
Proof.
  assert (Hn : (fun e => M (inst (e_state e)))
                 <$> explain_body (H := Reference.externals) Reference.sum3 []
                       Reference.x123 Reference.no_kwargs
               = Some 3) by (vm_compute; reflexivity).
  apply fmap_Some in Hn as (e & Hrun & HM).
  destruct (explain_scatters_solve (H := Reference.externals) _ _ _ _ e 0 Hrun)
    as (vphi & var & Hsol & _ & Hget & _).
  - rewrite <- HM. lia.
  - vm_compute. lia.
  - exists e, vphi, var. split; [exact Hrun|]. split; [exact Hsol|exact Hget].
Defined.

(** ** [shap_values] and the variance placeholder *)

Section ShapValues.
Context `{Externals}.

Local Abbreviation explanation_of vo e :=
  (if (vo : bool) then Unsqueezed (e_phi e) else Squeezed (column 0 (e_phi e))).

Local Abbreviation explained_from st kw :=
  (fun x e => exists st_i g_i,
     cfg st_i = cfg st /\ explain_body st_i g_i x kw = Some e).

Lemma explain_body_cfg st g x kw e :
  explain_body st g x kw = Some e -> cfg (e_state e) = cfg st.
Proof.
  unfold explain_body. intros Hrun.
  apply bind_Some in Hrun as (st1 & Hprep & Hrun).
  destruct (prepare_spec _ _ _ Hprep) as (Hcfg & _).
  destruct (M (inst st1)) as [|[|m]].
  - by injection Hrun as <-.
  - apply bind_Some in Hrun as (i0 & _ & Hrun).
    apply bind_Some in Hrun as (phi & _ & Hrun). by injection Hrun as <-.
  - apply bind_Some in Hrun as (s & Hs & Hrun).
    apply bind_Some in Hrun as (st2 & Hrun2 & Hrun).
    apply bind_Some in Hrun as ([[phi phi_var] warns] & _ & Hrun).
    injection Hrun as <-. simpl.
    destruct (sample_coalitions_frame _ _ _ _ _ Hs) as [Hc _].
    unfold run in Hrun2.
    apply bind_Some in Hrun2 as (_ & _ & Hrun2).
    apply bind_Some in Hrun2 as (_ & _ & Hrun2).
    apply bind_Some in Hrun2 as (ey' & _ & Hrun2).
    injection Hrun2 as <-. simpl. congruence.
Qed.

Lemma explain_out_spec vo st g x kw ex st' g' :
  explain_out vo st g x kw = Some (ex, st', g') ->
  cfg st' = cfg st /\
  exists e, explain_body st g x kw = Some e /\ ex = explanation_of vo e.
Proof.
  unfold explain_out. intros Hrun.
  apply bind_Some in Hrun as (e & He & Hrun).
  pose proof (explain_body_cfg _ _ _ _ _ He) as Hc.
  destruct vo.
  - injection Hrun as <- <- <-. split; [done|]. by exists e.
  - apply bind_Some in Hrun as (_ & _ & Hrun). injection Hrun as <- <- <-.
    split; [done|]. by exists e.
Qed.

Lemma explain_each_from vo kw X :
  forall exs0 st0 g0 exs st' g',
  foldlM (fun '(exs, st, g) x =>
            '(ex, st, g) ← explain_out vo st g x kw;
            Some (exs ++ [ex], st, g))
         (exs0, st0, g0) X = Some (exs, st', g') ->
  cfg st' = cfg st0 /\
  exists es,
    exs = exs0 ++ map (fun e => explanation_of vo e) es /\
    Forall2 (explained_from st0 kw) X es.
Proof.
  induction X as [|x X IH]; intros exs0 st0 g0 exs st' g' Hrun; simpl in Hrun.
  - injection Hrun as <- <- <-. split; [done|]. exists [].
    split; [by rewrite app_nil_r|constructor].
  - apply bind_Some in Hrun as ([[exs1 st1] g1] & Hstep & Hrun).
    apply bind_Some in Hstep as ([[ex st2] g2] & Hex & Hstep).
    injection Hstep as <- <- <-.
    destruct (explain_out_spec _ _ _ _ _ _ _ _ Hex) as (Hc & e & He & ->).
    destruct (IH _ _ _ _ _ _ Hrun) as (Hc' & es & -> & Hall).
    split; [congruence|].
    exists (e :: es). split; [by rewrite <- app_assoc|].
    constructor.
    + by exists st0, g0.
    + eapply Forall2_impl; [exact Hall|].
      intros x' e' (st_i & g_i & Hci & He'). exists st_i, g_i.
      split; [congruence|done].
Qed.

Lemma mapM_as_matrix (es : list explained) :
  mapM as_matrix (map (fun e => Unsqueezed (e_phi e)) es)
  = Some (map e_phi es).
Proof.
  induction es as [|e es IH]; [done|]. simpl in *. by rewrite IH.
Qed.

Lemma mapM_as_vector (es : list explained) :
  mapM as_vector (map (fun e => Squeezed (column 0 (e_phi e))) es)
  = Some (map (fun e => column 0 (e_phi e)) es).
Proof.
  induction es as [|e es IH]; [done|]. simpl in *. by rewrite IH.
Qed.

(** What [shap_values] returns for a batch, in terms of what [explain]
    computes for its instances. *)
Lemma shap_values_batch vo st g X kw out st' g' :
  shap_values vo st g (Batch X) kw = Some (out, st', g') ->
  X <> [] /\ cfg st' = cfg st /\
  exists es,
    Forall2 (explained_from st kw) X es /\
    out = if vo
          then PerOutputBatch
                 (map (fun j => map (fun e => column j (e_phi e)) es)
                      (seq 0 (D (cfg st))))
          else SingleBatch (map (fun e => column 0 (e_phi e)) es).
Proof.
  unfold shap_values, explain_each. intros Hrun.
  apply bind_Some in Hrun as ([[exs st1] g1] & Heach & Hrun).
  apply bind_Some in Hrun as (first & Hfirst & Hrun).
  destruct (explain_each_from _ _ _ _ _ _ _ _ _ Heach)
    as (Hc & es & -> & Hall).
  rewrite app_nil_l in *.
  assert (HX : X <> []).
  { intros ->. inversion Hall; subst. done. }
  destruct es as [|e0 es]; [done|].
  destruct vo; simpl in Hfirst; injection Hfirst as <-.
  - rewrite (mapM_as_matrix (e0 :: es)) in Hrun. simpl in Hrun.
    injection Hrun as <- <- <-.
    split; [exact HX|]. split; [exact Hc|].
    exists (e0 :: es). split; [exact Hall|]. f_equal.
    apply list_fmap_ext. intros _ j _. simpl. f_equal.
    by rewrite <- list_fmap_compose.
  - rewrite (mapM_as_vector (e0 :: es)) in Hrun. simpl in Hrun.
    injection Hrun as <- <- <-.
    split; [exact HX|]. split; [exact Hc|].
    by exists (e0 :: es).
Qed.

Lemma explain_body_shape st g x kw e :
  explain_body st g x kw = Some e ->
  length (e_phi e) = groups_size (cfg st).
Proof.
  intros He.
  assert (Hex : explain st g x kw = Some (e_phi e))
    by (unfold explain; by rewrite He).
  destruct (explain_rows _ _ _ _ _ Hex) as (vi & _ & Hlen & _).
  apply (f_equal length) in Hlen.
  by rewrite length_fmap, length_replicate in Hlen.
Qed.

(** [shap_values] on a batch: an empty batch raises; otherwise the result is
    one array of one row per instance and one column per feature group for a
    single-output model, and one such array per output for a vector-output
    model; the configuration of the explainer is as before. *)
Theorem shap_values_batch_shape vo st g X kw out st' g' :
  shap_values vo st g (Batch X) kw = Some (out, st', g') ->
  X <> [] /\ cfg st' = cfg st /\
  match out with
  | SingleBatch m =>
      vo = false /\ length m = length X /\
      Forall (fun row => length row = groups_size (cfg st)) m
  | PerOutputBatch ms =>
      vo = true /\ length ms = D (cfg st) /\
      Forall (fun m => length m = length X /\
                Forall (fun row => length row = groups_size (cfg st)) m) ms
  | _ => False
  end.
Proof.
  intros Hrun.
  destruct (shap_values_batch _ _ _ _ _ _ _ _ Hrun)
    as (HX & Hc & es & Hall & ->).
  split; [exact HX|]. split; [exact Hc|].
  assert (Hlen : length es = length X) by (symmetry; by eapply Forall2_length).
  assert (Hrows : Forall (fun e => length (e_phi e) = groups_size (cfg st)) es).
  { apply Forall_forall. intros e He.
    apply list_elem_of_lookup in He as [i Hi].
    destruct (Forall2_lookup_r _ _ _ _ _ Hall Hi)
      as (x & _ & st_i & g_i & Hci & Hex).
    rewrite <- Hci. by eapply explain_body_shape. }
  destruct vo.
  - split; [done|]. split; [by rewrite length_map, length_seq|].
    apply Forall_fmap, Forall_forall. intros j _. simpl.
    rewrite length_map. split; [done|].
    apply Forall_fmap. eapply Forall_impl; [exact Hrows|].
    intros e He. simpl. unfold column. by rewrite length_map.
  - split; [done|]. split; [by rewrite length_map|].
    apply Forall_fmap. eapply Forall_impl; [exact Hrows|].
    intros e He. simpl. unfold column. by rewrite length_map.
Qed.

(** Row [i] of what [shap_values] returns for a batch is what [explain]
    computes for instance [i], on an explainer with the configuration of
    the one [shap_values] was called on: the instances are explained one
    by one, in order. *)
Theorem shap_values_batch_rows vo st g X kw out st' g' i x :
  shap_values vo st g (Batch X) kw = Some (out, st', g') ->
  X !! i = Some x ->
  exists st_i g_i e,
    cfg st_i = cfg st /\ explain_body st_i g_i x kw = Some e /\
    match out with
    | SingleBatch m => m !! i = Some (column 0 (e_phi e))
    | PerOutputBatch ms =>
        forall j, j < D (cfg st) ->
          exists mj, ms !! j = Some mj /\ mj !! i = Some (column j (e_phi e))
    | _ => False
    end.
Proof.
  intros Hrun Hx.
  destruct (shap_values_batch _ _ _ _ _ _ _ _ Hrun)
    as (_ & _ & es & Hall & ->).
  destruct (Forall2_lookup_l _ _ _ _ _ Hall Hx)
    as (e & He & st_i & g_i & Hci & Hex).
  exists st_i, g_i, e. split; [done|]. split; [done|].
  destruct vo.
  - intros j Hj. eexists. split.
    + rewrite list_lookup_fmap, lookup_seq_lt by done. reflexivity.
    + by rewrite list_lookup_fmap, He.
  - by rewrite list_lookup_fmap, He.
Qed.


End ShapValues.


Lemma shap_values_batch_shape_witness :
  exists out st' g',
    shap_values (H := Reference.externals) false Reference.sum3 []
      (Batch [Reference.x123; Reference.x050]) Reference.no_kwargs
      = Some (out, st', g') /\
    cfg st' = cfg Reference.sum3 /\
    match out with
    | SingleBatch m =>
        false = false /\ length m = 2 /\
        Forall (fun row => length row = groups_size (cfg Reference.sum3)) m
    | PerOutputBatch ms =>
        false = true /\ length ms = D (cfg Reference.sum3) /\
        Forall (fun m => length m = 2 /\
                  Forall (fun row => length row
                                     = groups_size (cfg Reference.sum3)) m) ms
    | _ => False
    end.
Proof.
  assert (Hn : (fun r => match r.1.1 with SingleBatch m => length m | _ => 0 end)
                 <$> shap_values (H := Reference.externals) false
                       Reference.sum3 []
                       (Batch [Reference.x123; Reference.x050])
                       Reference.no_kwargs
               = Some 2) by (vm_compute; reflexivity).
  apply fmap_Some in Hn as ([[out st'] g'] & Hrun & _).
  exists out, st', g'. split; [exact Hrun|].
  exact (proj2 (shap_values_batch_shape (H := Reference.externals)
                  _ _ _ _ _ _ _ _ Hrun)).
Defined.


Lemma shap_values_batch_rows_witness :
  exists out st' g' st_i g_i e,
    shap_values (H := Reference.externals) false Reference.sum3 []
      (Batch [Reference.x123; Reference.x050]) Reference.no_kwargs
      = Some (out, st', g') /\
    cfg st_i = cfg Reference.sum3 /\
    explain_body (H := Reference.externals) st_i g_i Reference.x050
      Reference.no_kwargs = Some e /\
    match out with
    | SingleBatch m => m !! 1 = Some (column 0 (e_phi e))
    | PerOutputBatch ms =>
        forall j, j < D (cfg Reference.sum3) ->
          exists mj, ms !! j = Some mj /\ mj !! 1 = Some (column j (e_phi e))
    | _ => False
    end.
Proof.
  assert (Hn : (fun r => match r.1.1 with SingleBatch m => length m | _ => 0 end)
                 <$> shap_values (H := Reference.externals) false
                       Reference.sum3 []
                       (Batch [Reference.x123; Reference.x050])
                       Reference.no_kwargs
               = Some 2) by (vm_compute; reflexivity).
  apply fmap_Some in Hn as ([[out st'] g'] & Hrun & _).
  destruct (shap_values_batch_rows (H := Reference.externals)
              _ _ _ _ _ _ _ _ 1 Reference.x050 Hrun eq_refl)
    as (st_i & g_i & e & Hc & He & Hrow).
  exists out, st', g', st_i, g_i, e.
  split; [exact Hrun|]. split; [exact Hc|]. split; [exact He|exact Hrow].
Defined.
